(** * EmailReadImapV1: the IMAP e-mail trigger node

    A shallow embedding of
    [packages/nodes-base/nodes/EmailReadImap/v1/EmailReadImapV1.node.ts]:
    the attachment and text helpers, [parseRawEmail], the fetch cycle
    [getNewEmails], and the connection life cycle of [trigger]
    ([establishConnection], the [onMail] callback, the connection error
    handler, the deferred [returnedPromise]).

    Async functions are functions on an explicit [World] (the node's static
    data and the trace of calls made on collaborators); a rejected promise
    is an [Err] result, and the world reached at the point of rejection is
    kept, since JavaScript does not roll back mutations on a throw. *)

From stdpp Require Import base option list strings gmap pretty.

Set Warnings "-register-all".
Open Scope string_scope.
Open Scope list_scope.

(** ** Results and errors *)

Inductive Error :=
  | NodeOperationError (message : string)
  | TypeError (message : string)
  | ExternalError (reason : string).

Inductive Res (A : Type) :=
  | Ok (a : A)
  | Err (e : Error).
Arguments Ok {A} a.
Arguments Err {A} e.

(** The outcome of a call on a collaborator (the IMAP library, mailparser,
    the host's binary-data helper): a value, or a rejection with a reason.
    Collaborators never raise the node's own [NodeOperationError]. *)
Inductive Outcome (A : Type) :=
  | Resolved (a : A)
  | Rejected (reason : string).
Arguments Resolved {A} a.
Arguments Rejected {A} reason.

(** ** Data model *)

Inductive PostProcessAction := read | nothing.
Inductive Format := raw | resolved | simple.

(** [SearchCriteria] of @n8n/imap: a keyword such as ['UNSEEN'], or a
    nested array such as [['UID', '7:*']]. *)
Inductive SearchCriteria :=
  | Crit (keyword : string)
  | CritList (items : list SearchCriteria).

(** A body section of a fetched message ([message.parts]): the text of the
    section, or, for the HEADER section, the parsed header object (field
    name to the list of its values, in key order). *)
Inductive PartBody :=
  | BodyText (s : string)
  | BodyHeader (fields : list (string * list string)).

Record MessageBodyPart := { which : string; body : PartBody }.

(** A leaf of the MIME structure, as [getParts] returns it. *)
Record Disposition := { disposition_type : string; filename : string }.
Record StructPart := {
  partID : string;
  type : string;
  subtype : string;
  disposition : option Disposition
}.

Inductive StructNode :=
  | SLeaf (p : StructPart)
  | SNested (children : list StructNode).

Record Message := {
  uid : N;                              (* message.attributes.uid *)
  struct : option (list StructNode);    (* message.attributes.struct *)
  parts : list MessageBodyPart          (* message.parts *)
}.

Record IBinaryData := {
  data : string;
  fileName : option string;
  mimeType : option string
}.

Inductive JsonValue :=
  | JUndefined
  | JString (s : string)
  | JBody (b : PartBody)
  | JObject (o : gmap string string).

Record INodeExecutionData := {
  json : gmap string JsonValue;
  binary : option (gmap string IBinaryData)
}.

(** What mailparser's [simpleParser] returns, as far as the node reads it. *)
Record HeaderLine := { key : string; line : string }.
Record Attachment := {
  content : string;
  att_filename : option string;
  contentType : option string
}.
Record ParsedMail := {
  headerLines : list HeaderLine;
  attachments : option (list Attachment);
  decoded : gmap string JsonValue       (* text, html, subject, ... *)
}.

Record FetchOptions := { bodies : list string; markSeen : bool; fetch_struct : bool }.

(** The node parameters [trigger] and [getNewEmails] read. *)
Record NodeParameters := {
  mailbox : string;
  postProcessAction : PostProcessAction;
  format : Format;
  downloadAttachments : bool;
  dataPropertyAttachmentsPrefixName : string;
  customEmailConfig : option string;    (* options.customEmailConfig *)
  forceReconnect : option N             (* options.forceReconnect, minutes *)
}.

(** ** Collaborators *)

(** Functions the node imports and that are not part of the node's file. *)
Record Externals := {
  (* getParts of @n8n/imap, applied to message.attributes.struct *)
  getParts : option (list StructNode) -> Outcome (list StructPart);
  (* simpleParser of mailparser *)
  simpleParser : PartBody -> Outcome ParsedMail;
  (* this.helpers.prepareBinaryData(content, filename, contentType) *)
  prepareBinaryData : string -> option string -> option string -> Outcome IBinaryData;
  (* JSON.parse on the custom criteria; None is a thrown SyntaxError *)
  JSON_parse : string -> option (list SearchCriteria)
}.

(** An open IMAP connection ([ImapSimple]), seen as the store's answers. *)
Record ImapSimple := {
  search : list SearchCriteria -> FetchOptions -> Outcome (list Message);
  getPartData : Message -> StructPart -> Outcome string;
  addFlags : list N -> string -> Outcome unit
}.

(** ** The world: static data and the trace of observable calls *)

Inductive Effect :=
  | ImapConnect
  | ImapOpenBox (box : string)
  | ImapEnd
  | ImapSearch (criteria : list SearchCriteria) (options : FetchOptions)
  | ImapGetPartData (message_uid : N) (part : string)
  | ImapAddFlags (uids : list N) (flag : string)
  | Emit (batch : list INodeExecutionData)
  | EmitError (e : Error)
  | LoggerError (text : string)
  | SetInterval (minutes : N)
  | ClearInterval
  | ReturnedPromiseResolve.

Record World := {
  lastMessageUid : option N;    (* staticData.lastMessageUid *)
  trace : list Effect           (* oldest call first *)
}.

(** ** The monad of async functions *)

Definition Async (A : Type) : Type := World -> Res A * World.

Definition ret {A} (a : A) : Async A := fun w => (Ok a, w).

Definition bind {A B} (m : Async A) (k : A -> Async B) : Async B :=
  fun w => match m w with
           | (Ok a, w') => k a w'
           | (Err e, w') => (Err e, w')
           end.

Definition throw {A} (e : Error) : Async A := fun w => (Err e, w).

(** [try { m } catch { h }] *)
Definition try_catch {A} (m : Async A) (h : Error -> Async A) : Async A :=
  fun w => match m w with
           | (Ok a, w') => (Ok a, w')
           | (Err e, w') => h e w'
           end.

Definition await {A} (o : Outcome A) : Async A :=
  match o with
  | Resolved a => ret a
  | Rejected reason => throw (ExternalError reason)
  end.

(** The world after one more observable call. *)
Definition logged (w : World) (e : Effect) : World :=
  {| lastMessageUid := lastMessageUid w; trace := trace w ++ [e] |}.

Definition perform (e : Effect) : Async unit := fun w => (Ok tt, logged w e).

Definition getLastMessageUid : Async (option N) :=
  fun w => (Ok (lastMessageUid w), w).

Definition setLastMessageUid (u : N) : Async unit :=
  fun w => (Ok tt, {| lastMessageUid := Some u; trace := trace w |}).

Notation "'let!' x ':=' c1 'in' c2" := (bind c1 (fun x => c2))
  (at level 10, x name, c1 at level 100, c2 at level 200).
Notation "c1 ;;; c2" := (bind c1 (fun _ => c2))
  (at level 100, c2 at level 200, right associativity).

(** ** Strings *)

Definition upper_ascii (c : Ascii.ascii) : Ascii.ascii :=
  let n := Ascii.nat_of_ascii c in
  if (97 <=? n)%nat && (n <=? 122)%nat then Ascii.ascii_of_nat (n - 32) else c.

(** [String.prototype.toUpperCase] on ASCII text. *)
Fixpoint toUpperCase (s : string) : string :=
  match s with
  | EmptyString => EmptyString
  | String c s' => String (upper_ascii c) (toUpperCase s')
  end.

(** The template literal [`${prefix}${i}`]. *)
Definition propertyKey (prefix : string) (i : nat) : string := prefix +:+ pretty i.

(** ** The node's helpers *)

Section Node.

Context (ext : Externals).

(** [for (const x of xs) await f(x)], results collected in order. *)
Fixpoint forAwait {A B} (f : A -> Async B) (xs : list A) : Async (list B) :=
  match xs with
  | [] => ret []
  | x :: rest =>
      let! y := f x in
      let! ys := forAwait f rest in
      ret (y :: ys)
  end.

(** [parseRawEmail], lines 42-49: the loop over [responseData.attachments],
    [i] counting from the index of the first remaining attachment. *)
Fixpoint storeAttachments (dataPropertyNameDownload : string) (i : nat)
    (atts : list Attachment) (binaryData : gmap string IBinaryData)
    : Async (gmap string IBinaryData) :=
  match atts with
  | [] => ret binaryData
  | attachment :: rest =>
      let! prepared := await (prepareBinaryData ext (content attachment)
                               (att_filename attachment) (contentType attachment)) in
      storeAttachments dataPropertyNameDownload (S i) rest
        (<[propertyKey dataPropertyNameDownload i := prepared]> binaryData)
  end.

(** [parseRawEmail], lines 24-58. *)
Definition parseRawEmail (messageEncoded : PartBody) (dataPropertyNameDownload : string)
    : Async INodeExecutionData :=
  let! responseData := await (simpleParser ext messageEncoded) in
  let headers : gmap string string :=
    fold_left (fun hs header => <[key header := line header]> hs)
              (headerLines responseData) ∅ in
  let! binaryData :=
    match attachments responseData with
    | Some atts => storeAttachments dataPropertyNameDownload 0 atts ∅
    | None => ret ∅
    end in
  let responseJson : gmap string JsonValue :=
    let withHeaders :=
      <["headerLines" := JUndefined]> (<["headers" := JObject headers]> (decoded responseData)) in
    match attachments responseData with
    | Some _ => <["attachments" := JUndefined]> withHeaders
    | None => withHeaders
    end in
  ret {| json := responseJson;
         binary := if (size binaryData =? 0)%nat then None else Some binaryData |}.

(** [getText], lines 285-307. *)
Definition getText (connection : ImapSimple) (parts_ : list StructPart)
    (message : Message) (subtype_ : string) : Async string :=
  match struct message with
  | None => ret ""
  | Some _ =>
      let textParts :=
        List.filter (fun part =>
            String.eqb (toUpperCase (type part)) "TEXT"
            && String.eqb (toUpperCase (subtype part)) (toUpperCase subtype_)) parts_ in
      match textParts with
      | [] => ret ""
      | part :: _ =>
          try_catch
            (perform (ImapGetPartData (uid message) (partID part)) ;;;
             await (getPartData connection message part))
            (fun _ => ret "")
      end
  end.

(** [getAttachment], lines 310-341. Every part request is issued before any
    answer is awaited; [Promise.all] is read in list order. *)
Definition getAttachment (imapConnection : ImapSimple) (parts_ : list StructPart)
    (message : Message) : Async (list IBinaryData) :=
  match struct message with
  | None => ret []
  | Some _ =>
      let attachmentParts :=
        List.filter (fun part =>
            match disposition part with
            | Some d => String.eqb (toUpperCase (disposition_type d)) "ATTACHMENT"
            | None => false
            end) parts_ in
      forAwait (fun attachmentPart =>
                  perform (ImapGetPartData (uid message) (partID attachmentPart)))
               attachmentParts ;;;
      forAwait (fun attachmentPart =>
                  let! partData := await (getPartData imapConnection message attachmentPart) in
                  await (prepareBinaryData ext partData
                           (filename <$> disposition attachmentPart) None))
               attachmentParts
  end.

(** ** The fetch cycle *)

(** [find(message.parts, { which })] of lodash. *)
Definition findPart (ps : list MessageBodyPart) (w : string) : option MessageBodyPart :=
  List.find (fun p => String.eqb (which p) w) ps.

Definition parseError : Error := NodeOperationError "Email part could not be parsed.".

(** Lines 395-406: the body of the loop of the resolved format, after the
    high-water-mark has been handled. *)
Definition resolvedBody (dataPropertyAttachmentsPrefixName : string) (message : Message)
    : Async INodeExecutionData :=
  match findPart (parts message) "" with
  | None => throw parseError
  | Some part => parseRawEmail (body part) dataPropertyAttachmentsPrefixName
  end.

(** Lines 482-494, the raw format. *)
Definition rawBody (message : Message) : Async INodeExecutionData :=
  match findPart (parts message) "TEXT" with
  | None => throw parseError
  | Some part => ret {| json := {[ "raw" := JBody (body part) ]}; binary := None |}
  end.

Definition topLevelProperties : list string := ["cc"; "date"; "from"; "subject"; "to"].

(** [messageBody[propertyName]] on the parsed header object. *)
Definition headerValues (messageBody : list (string * list string)) (propertyName : string)
    : list string :=
  match List.find (fun kv => String.eqb (fst kv) propertyName) messageBody with
  | Some kv => snd kv
  | None => []
  end.

(** Lines 444-453: the top level of [newEmail.json] and its metadata
    object, filled from the header fields. *)
Fixpoint copyHeaders (messageBody : list (string * list string)) (keys : list string)
    (top : gmap string JsonValue) (metadata : gmap string string)
    : gmap string JsonValue * gmap string string :=
  match keys with
  | [] => (top, metadata)
  | propertyName :: rest =>
      match headerValues messageBody propertyName with
      | [] => copyHeaders messageBody rest top metadata
      | first :: _ =>
          if bool_decide (propertyName ∈ topLevelProperties)
          then copyHeaders messageBody rest (<[propertyName := JString first]> top) metadata
          else copyHeaders messageBody rest top (<[propertyName := first]> metadata)
      end
  end.

(** Lines 460-462. *)
Fixpoint keyAttachments (prefix : string) (i : nat) (atts : list IBinaryData)
    (target : gmap string IBinaryData) : gmap string IBinaryData :=
  match atts with
  | [] => target
  | a :: rest => keyAttachments prefix (S i) rest (<[propertyKey prefix i := a]> target)
  end.

(** The header object of a [MessageBodyPart]; the library gives the HEADER
    section a parsed object, which the source's cast relies on. *)
Definition headerObject (b : PartBody) : list (string * list string) :=
  match b with
  | BodyHeader fields => fields
  | BodyText _ => []
  end.

(** Lines 431-466, the simple format. *)
Definition simpleBody (imapConnection : ImapSimple) (downloadAttachments_ : bool)
    (dataPropertyAttachmentsPrefixName : string) (message : Message)
    : Async INodeExecutionData :=
  let! parts_ := await (getParts ext (struct message)) in
  let! textHtml := getText imapConnection parts_ message "html" in
  let! textPlain := getText imapConnection parts_ message "plain" in
  let messageHeader :=
    List.filter (fun part => String.eqb (which part) "HEADER") (parts message) in
  match messageHeader with
  | [] => throw (TypeError "Cannot read properties of undefined (reading 'body')")
  | header :: _ =>
      let messageBody := headerObject (body header) in
      let '(top, metadata) :=
        copyHeaders messageBody (map fst messageBody)
          {[ "textHtml" := JString textHtml; "textPlain" := JString textPlain ]} ∅ in
      let newJson := <["metadata" := JObject metadata]> top in
      if downloadAttachments_ then
        let! atts := getAttachment imapConnection parts_ message in
        match atts with
        | [] => ret {| json := newJson; binary := None |}
        | _ :: _ =>
            ret {| json := newJson;
                   binary := Some (keyAttachments dataPropertyAttachmentsPrefixName 0 atts ∅) |}
        end
      else ret {| json := newJson; binary := None |}
  end.

(** The loop shared by the three formats (lines 382-407, 418-467 and
    469-495): the redundant filter on the high-water-mark, its advance, and
    the format's body. *)
Fixpoint forEachMessage (loopBody : Message -> Async INodeExecutionData)
    (results : list Message) (newEmails : list INodeExecutionData)
    : Async (list INodeExecutionData) :=
  match results with
  | [] => ret newEmails
  | message :: rest =>
      let! last := getLastMessageUid in
      if match last with
         | Some l => (uid message <=? l)%N
         | None => false
         end
      then forEachMessage loopBody rest newEmails
      else
        (if match last with
            | None => true
            | Some l => (l <? uid message)%N
            end
         then setLastMessageUid (uid message)
         else ret tt) ;;;
        let! newEmail := loopBody message in
        forEachMessage loopBody rest (newEmails ++ [newEmail])
  end.

Definition fetchOptionsFor (f : Format) : FetchOptions :=
  match f with
  | simple | raw => {| bodies := ["TEXT"; "HEADER"]; markSeen := false; fetch_struct := true |}
  | resolved => {| bodies := [""]; markSeen := false; fetch_struct := true |}
  end.

Definition SEEN : string := "\SEEN".

(** [getNewEmails], lines 344-506. *)
Definition getNewEmails (params : NodeParameters) (imapConnection : ImapSimple)
    (searchCriteria : list SearchCriteria) : Async (list INodeExecutionData) :=
  let fetchOptions := fetchOptionsFor (format params) in
  perform (ImapSearch searchCriteria fetchOptions) ;;;
  let! results := await (search imapConnection searchCriteria fetchOptions) in
  let! newEmails :=
    match format params with
    | resolved =>
        forEachMessage (resolvedBody (dataPropertyAttachmentsPrefixName params)) results []
    | simple =>
        let dataPropertyAttachmentsPrefixName_ :=
          if downloadAttachments params then dataPropertyAttachmentsPrefixName params else "" in
        forEachMessage
          (simpleBody imapConnection (downloadAttachments params)
             dataPropertyAttachmentsPrefixName_) results []
    | raw => forEachMessage rawBody results []
    end in
  match postProcessAction params with
  | read =>
      let uidList := map uid results in
      if (0 <? length uidList)%nat
      then perform (ImapAddFlags uidList SEEN) ;;; await (addFlags imapConnection uidList SEEN)
      else ret tt
  | nothing => ret tt
  end ;;;
  ret newEmails.

End Node.

(** ** The watcher: [trigger] and its callbacks *)

(** The variables [trigger] closes over. Every call of
    [establishConnection] allocates a [searchCriteria] array of its own,
    captured by the [onMail] callback of the connection it opens:
    [closures] holds these arrays, indexed by connection, and [connection]
    says which connection the variable of that name refers to. *)
Record Watcher := {
  world : World;
  closures : list (list SearchCriteria);
  connection : option nat;
  returnedPromiseResolved : bool;
  waiting : list Error;           (* callbacks queued on returnedPromise.promise *)
  reconnectionInterval : bool
}.

Definition withWorld (w : Watcher) (wd : World) : Watcher :=
  {| world := wd; closures := closures w; connection := connection w;
     returnedPromiseResolved := returnedPromiseResolved w; waiting := waiting w;
     reconnectionInterval := reconnectionInterval w |}.

Definition logW (e : Effect) (w : Watcher) : Watcher :=
  withWorld w (snd (perform e (world w))).

Definition withConnection (w : Watcher) (k : nat) : Watcher :=
  {| world := world w; closures := closures w; connection := Some k;
     returnedPromiseResolved := returnedPromiseResolved w; waiting := waiting w;
     reconnectionInterval := reconnectionInterval w |}.

Definition withClosures (w : Watcher) (cl : list (list SearchCriteria)) : Watcher :=
  {| world := world w; closures := cl; connection := connection w;
     returnedPromiseResolved := returnedPromiseResolved w; waiting := waiting w;
     reconnectionInterval := reconnectionInterval w |}.

(** A watcher before [trigger] runs, with the static data as persisted. *)
Definition initialWatcher (persisted : option N) : Watcher :=
  {| world := {| lastMessageUid := persisted; trace := [] |};
     closures := []; connection := None; returnedPromiseResolved := false;
     waiting := []; reconnectionInterval := false |}.

(** [['UID', `${staticData.lastMessageUid}:*`]] *)
Definition uidCriterion (lastUid : N) : SearchCriteria :=
  CritList [Crit "UID"; Crit (pretty lastUid +:+ ":*")].

(** [searchCriteria.push(c)] on the array of connection [k]. *)
Definition pushCriterion (k : nat) (c : SearchCriteria) (w : Watcher) : Watcher :=
  match closures w !! k with
  | Some arr => withClosures w (<[k := arr ++ [c]]> (closures w))
  | None => w
  end.

(** [await returnedPromise.promise.then(() => this.emitError(error))]:
    at once when the promise is resolved, queued otherwise. *)
Definition emitErrorWhenResolved (e : Error) (w : Watcher) : Watcher :=
  if returnedPromiseResolved w then logW (EmitError e) w
  else {| world := world w; closures := closures w; connection := connection w;
          returnedPromiseResolved := false; waiting := waiting w ++ [e];
          reconnectionInterval := reconnectionInterval w |}.

(** [returnedPromise.resolve()]: the queued callbacks run. *)
Definition resolveReturnedPromise (w : Watcher) : Watcher :=
  if returnedPromiseResolved w then w
  else
    let w1 := logW ReturnedPromiseResolve w in
    {| world := {| lastMessageUid := lastMessageUid (world w1);
                   trace := trace (world w1) ++ map EmitError (waiting w) |};
       closures := closures w; connection := connection w;
       returnedPromiseResolved := true; waiting := [];
       reconnectionInterval := reconnectionInterval w |}.

Section Trigger.

Context (ext : Externals) (params : NodeParameters).

Definition configError : Error := NodeOperationError "Custom email config is not valid JSON.".

(** Lines 511-518: the search criteria a connection starts from. *)
Definition baseCriteria : Res (list SearchCriteria) :=
  match customEmailConfig params with
  | None => Ok [Crit "UNSEEN"]
  | Some text =>
      match JSON_parse ext text with
      | Some parsed => Ok parsed
      | None => Err configError
      end
  end.

(** [establishConnection], lines 510-607; [connectOutcome] is what
    [imapConnect] answers. The result is the index of the new connection. *)
Definition establishConnection (connectOutcome : Outcome unit) (w : Watcher)
    : Res nat * Watcher :=
  match baseCriteria with
  | Err e => (Err e, w)
  | Ok searchCriteria =>
      let w1 := logW ImapConnect (withClosures w (closures w ++ [searchCriteria])) in
      match connectOutcome with
      | Resolved _ => (Ok (length (closures w)), w1)
      | Rejected reason => (Err (ExternalError reason), w1)
      end
  end.

(** The [onMail] callback of connection [k], lines 529-566; [current] is
    the connection held by the variable [connection] when it runs. *)
Definition onMail (k : nat) (current : ImapSimple) (w : Watcher) : Watcher :=
  match connection w with
  | None => w
  | Some _ =>
      match closures w !! k with
      | None => w
      | Some _ =>
          let w1 :=
            match lastMessageUid (world w) with
            | Some lastUid => pushCriterion k (uidCriterion lastUid) w
            | None => w
            end in
          let searchCriteria := default [] (closures w1 !! k) in
          match getNewEmails ext params current searchCriteria (world w1) with
          | (Ok returnData, wd) =>
              if (0 <? length returnData)%nat
              then logW (Emit returnData) (withWorld w1 wd)
              else withWorld w1 wd
          | (Err error, wd) =>
              emitErrorWhenResolved error
                (logW (LoggerError "Email Read Imap node encountered an error fetching new emails")
                      (withWorld w1 wd))
          end
      end
  end.

(** The ['error'] handler of a connection, lines 586-604. *)
Definition onConnectionError (code : string) (reconnect reopen : Outcome unit)
    (w : Watcher) : Watcher :=
  let errorCode := toUpperCase code in
  if bool_decide (errorCode ∈ ["ECONNRESET"; "EPIPE"]) then
    match establishConnection reconnect w with
    | (Ok k, w1) =>
        let w2 := logW (ImapOpenBox (mailbox params)) (withConnection w1 k) in
        match reopen with
        | Resolved _ => w2
        | Rejected _ => logW (LoggerError "IMAP reconnect did fail") w2
        end
    | (Err _, w1) => logW (LoggerError "IMAP reconnect did fail") w1
    end
  else
    logW (EmitError (ExternalError code))
      (logW (LoggerError "Email Read Imap node encountered a connection error") w).

(** Lines 617-622, the callback of the reconnection timer. *)
Definition forcedReconnect (reconnect : Outcome unit) (w : Watcher) : Watcher :=
  let w0 := logW ImapEnd w in
  match establishConnection reconnect w0 with
  | (Ok k, w1) => logW (ImapOpenBox (mailbox params)) (withConnection w1 k)
  | (Err _, w1) => w1
  end.

(** [closeFunction], lines 628-633. *)
Definition closeFunction (w : Watcher) : Watcher :=
  logW ImapEnd (if reconnectionInterval w then logW ClearInterval w else w).

(** [trigger] up to its second await (lines 272-611), the credentials and
    the parameters having been read: the connection is established and
    [openBox] has been requested. *)
Definition trigger_connect (connectOutcome : Outcome unit) (w : Watcher)
    : Res unit * Watcher :=
  match establishConnection connectOutcome w with
  | (Err e, w1) => (Err e, w1)
  | (Ok k, w1) => (Ok tt, logW (ImapOpenBox (mailbox params)) (withConnection w1 k))
  end.

(** [trigger] from the answer of [openBox] on (lines 611-640). *)
Definition trigger_ready (openBoxOutcome : Outcome unit) (w : Watcher)
    : Res unit * Watcher :=
  match openBoxOutcome with
  | Rejected reason => (Err (ExternalError reason), w)
  | Resolved _ =>
      let w1 :=
        match forceReconnect params with
        | Some minutes =>
            let w' := logW (SetInterval minutes) w in
            {| world := world w'; closures := closures w'; connection := connection w';
               returnedPromiseResolved := returnedPromiseResolved w'; waiting := waiting w';
               reconnectionInterval := true |}
        | None => w
        end in
      (Ok tt, resolveReturnedPromise w1)
  end.

(** [trigger] when nothing else happens while it awaits [openBox]. *)
Definition trigger (connectOutcome openBoxOutcome : Outcome unit) (w : Watcher)
    : Res unit * Watcher :=
  match trigger_connect connectOutcome w with
  | (Err e, w1) => (Err e, w1)
  | (Ok _, w1) => trigger_ready openBoxOutcome w1
  end.

(** What the event loop can deliver to a started watcher. *)
Inductive Event :=
  | NewMail (k : nat) (current : ImapSimple)
  | ConnectionError (code : string) (reconnect reopen : Outcome unit)
  | OpenBoxAnswered (o : Outcome unit)
  | ReconnectTimer (reconnect : Outcome unit)
  | Closed.

Definition step (w : Watcher) (ev : Event) : Watcher :=
  match ev with
  | NewMail k current => onMail k current w
  | ConnectionError code reconnect reopen => onConnectionError code reconnect reopen w
  | OpenBoxAnswered o =>
      if returnedPromiseResolved w then w else snd (trigger_ready o w)
  | ReconnectTimer reconnect =>
      if reconnectionInterval w then forcedReconnect reconnect w else w
  | Closed => closeFunction w
  end.

Definition run (w : Watcher) (evs : list Event) : Watcher := fold_left step evs w.

End Trigger.

(** ** Credentials, connection options and the credential test *)

Record Credentials := {
  user : string;
  password : string;
  host : string;
  port : N;
  secure : bool
}.

(** The [tlsOptions] object, a property being absent until it is set. *)
Record TlsOptions := {
  rejectUnauthorized : option bool;
  servername : option string
}.

(** The [imap] part of [ImapSimpleOptions]. *)
Record ImapOptions := {
  imap_user : string;
  imap_password : string;
  imap_host : string;
  imap_port : N;
  imap_tls : bool;
  authTimeout : N;
  tlsOptions : option TlsOptions
}.

(** [isEmpty(tlsOptions)] of lodash. *)
Definition isEmptyTls (t : TlsOptions) : bool :=
  match rejectUnauthorized t, servername t with
  | None, None => true
  | _, _ => false
  end.

(** Lines 237-246 and 520-528 with 252-254 and 579-581: the options built
    from the credentials, [tlsOptions] being set when it is not empty.
    [trim] is [String.prototype.trim], a built-in of the language: the
    functions below take it as they take the IMAP library, and nothing is
    assumed of the characters it removes. *)
Definition imapOptions (trim : string -> string) (credentials : Credentials)
    (t : TlsOptions) : ImapOptions :=
  {| imap_user := user credentials;
     imap_password := password credentials;
     imap_host := trim (host credentials);
     imap_port := port credentials;
     imap_tls := secure credentials;
     authTimeout := 20000;
     tlsOptions := if isEmptyTls t then None else Some t |}.

(** The options of [imapConnectionTest], lines 237-254. *)
Definition testOptions (trim : string -> string) (credentials : Credentials) : ImapOptions :=
  imapOptions trim credentials
    {| rejectUnauthorized := None;
       servername := if secure credentials then Some (trim (host credentials)) else None |}.


Record INodeCredentialTestResult := { test_status : string; test_message : string }.

(** The calls of the credential test on the IMAP library. *)
Inductive TestCall :=
  | TestConnect (config : ImapOptions)
  | TestGetBoxes.

(** [imapConnectionTest], lines 231-267. [imapConnect] answers with a
    connection, seen as the answer its [getBoxes] will give; the result
    comes with the calls made. *)
Definition imapConnectionTest (trim : string -> string)
    (imapConnect : ImapOptions -> Outcome (Outcome unit))
    (credential : Credentials) : INodeCredentialTestResult * list TestCall :=
  let config := testOptions trim credential in
  match imapConnect config with
  | Rejected reason =>
      ({| test_status := "Error"; test_message := reason |}, [TestConnect config])
  | Resolved getBoxes =>
      match getBoxes with
      | Rejected reason =>
          ({| test_status := "Error"; test_message := reason |},
           [TestConnect config; TestGetBoxes])
      | Resolved _ =>
          ({| test_status := "OK"; test_message := "Connection successful!" |},
           [TestConnect config; TestGetBoxes])
      end
  end.

(** ** Reference collaborators, for running the model on concrete inputs *)

(** Modelled from the spec: [getParts] of @n8n/imap is not part of the
    node's file. The spec has the formatter decode the MIME part tree: the
    leaves of the tree in order. The walk starts by reading the length of
    the array it is given, so it has no answer for an absent structure: the
    call throws, which is why line 431 asserts the structure present
    ([message.attributes.struct!]). *)
Fixpoint flattenStruct (n : StructNode) : list StructPart :=
  match n with
  | SLeaf p => [p]
  | SNested children => flat_map flattenStruct children
  end.

Definition getParts_spec (s : option (list StructNode)) : Outcome (list StructPart) :=
  match s with
  | Some nodes => Resolved (flat_map flattenStruct nodes)
  | None => Rejected "Cannot read properties of undefined (reading 'length')"
  end.

Definition prepareBinaryData_ref (buffer : string) (name mime : option string)
    : Outcome IBinaryData :=
  Resolved {| data := buffer; fileName := name; mimeType := mime |}.

(** A strict reader for the JSON texts the criteria option holds: arrays,
    possibly nested, of string literals without escapes. Any other text is
    a syntax error. *)
Inductive Token := TOpen | TClose | TComma | TStr (s : string).

Definition quoteChar : Ascii.ascii := Ascii.ascii_of_nat 34.

Definition isBlank (c : Ascii.ascii) : bool :=
  let n := Ascii.nat_of_ascii c in
  (n =? 32)%nat || (n =? 9)%nat || (n =? 10)%nat || (n =? 13)%nat.

(** [inString] holds the characters of the literal being read; 34, 44, 91,
    92 and 93 are the codes of the quote, the comma, the opening bracket,
    the backslash and the closing bracket. *)
Fixpoint lex (cs : string) (inString : option string) : option (list Token) :=
  match cs, inString with
  | EmptyString, None => Some []
  | EmptyString, Some _ => None
  | String c rest, Some lit =>
      let n := Ascii.nat_of_ascii c in
      if (n =? 34)%nat then (TStr lit ::.) <$> lex rest None
      else if (n =? 92)%nat || (n <? 32)%nat then None
      else lex rest (Some (lit +:+ String c EmptyString))
  | String c rest, None =>
      let n := Ascii.nat_of_ascii c in
      if (n =? 34)%nat then lex rest (Some EmptyString)
      else if (n =? 91)%nat then (TOpen ::.) <$> lex rest None
      else if (n =? 93)%nat then (TClose ::.) <$> lex rest None
      else if (n =? 44)%nat then (TComma ::.) <$> lex rest None
      else if isBlank c then lex rest None
      else None
  end.

Inductive Expect := AfterOpen | AfterValue | AfterComma.

Fixpoint parseItems (ts : list Token) (stack : list (list SearchCriteria))
    (cur : list SearchCriteria) (st : Expect) : option (list SearchCriteria) :=
  match ts with
  | [] => None
  | TStr s :: rest =>
      match st with
      | AfterValue => None
      | _ => parseItems rest stack (cur ++ [Crit s]) AfterValue
      end
  | TOpen :: rest =>
      match st with
      | AfterValue => None
      | _ => parseItems rest (cur :: stack) [] AfterOpen
      end
  | TComma :: rest =>
      match st with
      | AfterValue => parseItems rest stack cur AfterComma
      | _ => None
      end
  | TClose :: rest =>
      match st with
      | AfterComma => None
      | _ =>
          match stack with
          | [] => match rest with [] => Some cur | _ :: _ => None end
          | parent :: stack' => parseItems rest stack' (parent ++ [CritList cur]) AfterValue
          end
      end
  end.

Definition JSON_parse_ref (text : string) : option (list SearchCriteria) :=
  match lex text None with
  | Some (TOpen :: ts) => parseItems ts [] [] AfterOpen
  | _ => None
  end.

Definition quoted (s : string) : string :=
  String quoteChar s +:+ String quoteChar EmptyString.

Definition plainParser (b : PartBody) : Outcome ParsedMail :=
  Resolved {| headerLines := []; attachments := Some []; decoded := ∅ |}.

Definition refExternals (parser : PartBody -> Outcome ParsedMail) : Externals :=
  {| getParts := getParts_spec; simpleParser := parser;
     prepareBinaryData := prepareBinaryData_ref; JSON_parse := JSON_parse_ref |}.

(** A store that answers every search with [msgs] and serves every part. *)
Definition storeWith (msgs : list Message) : ImapSimple :=
  {| search := fun _ _ => Resolved msgs;
     getPartData := fun _ part => Resolved (partID part);
     addFlags := fun _ _ => Resolved tt |}.

Definition textPart (s : string) : MessageBodyPart := {| which := "TEXT"; body := BodyText s |}.
Definition headerPart (fields : list (string * list string)) : MessageBodyPart :=
  {| which := "HEADER"; body := BodyHeader fields |}.
Definition fullPart (s : string) : MessageBodyPart := {| which := ""; body := BodyText s |}.

Definition mail (u : N) (ps : list MessageBodyPart) : Message :=
  {| uid := u; struct := Some []; parts := ps |}.

Definition paramsFor (f : Format) (action : PostProcessAction) : NodeParameters :=
  {| mailbox := "INBOX"; postProcessAction := action; format := f;
     downloadAttachments := false; dataPropertyAttachmentsPrefixName := "attachment_";
     customEmailConfig := None; forceReconnect := None |}.

Definition freshWorld (persisted : option N) : World :=
  {| lastMessageUid := persisted; trace := [] |}.

(** Sample batches. *)
Definition batch579 : list Message :=
  [mail 5 [textPart "five"]; mail 7 [textPart "seven"]; mail 9 [textPart "nine"]].

Definition batch975 : list Message :=
  [mail 9 [textPart "nine"]; mail 7 [textPart "seven"]; mail 5 [textPart "five"]].

(** Two messages, the second without a TEXT section. *)
Definition batchBroken : list Message := [mail 5 [textPart "five"]; mail 7 []].

Definition batch79 : list Message := [mail 7 [textPart "seven"]; mail 9 [textPart "nine"]].

Definition unseen : list SearchCriteria := [Crit "UNSEEN"].

(** A message with its header section and no TEXT section. *)
Definition headerOnly : Message := mail 5 [headerPart [("subject", ["hello"])]].

(** A message for which the store reported no structure, and a batch
    that ends with it. *)
Definition unstructured : Message :=
  {| uid := 5; struct := None; parts := [headerPart [("subject", ["hello"])]] |}.

Definition batchUnstructured : list Message :=
  [mail 3 [headerPart [("subject", ["first"])]]; unstructured].

(** A parsed mail with two attachments, and a parser that returns it. *)
Definition twoAttachments : ParsedMail :=
  {| headerLines := [{| key := "subject"; line := "Subject: hello" |}];
     attachments := Some [ {| content := "AAAA"; att_filename := Some "a.txt";
                              contentType := Some "text/plain" |};
                           {| content := "BBBB"; att_filename := Some "b.png";
                              contentType := Some "image/png" |} ];
     decoded := {[ "text" := JString "hello" ]} |}.

Definition attachmentParser (b : PartBody) : Outcome ParsedMail := Resolved twoAttachments.

(** A message whose structure has one attachment leaf. *)
Definition withAttachment : Message :=
  {| uid := 8;
     struct := Some [SLeaf {| partID := "2"; type := "application"; subtype := "pdf";
                              disposition := Some {| disposition_type := "attachment";
                                                     filename := "report.pdf" |} |}];
     parts := [headerPart [("subject", ["report"])]] |}.

(** Parameters with a custom criteria text. *)
Definition paramsWithConfig (text : string) : NodeParameters :=
  {| mailbox := "INBOX"; postProcessAction := read; format := raw;
     downloadAttachments := false; dataPropertyAttachmentsPrefixName := "attachment_";
     customEmailConfig := Some text; forceReconnect := None |}.

(** A watcher started with the persisted mark [persisted]: connected, and
    waiting for the answer of [openBox]. *)
Definition connectedWatcher (params : NodeParameters) (persisted : option N) : Watcher :=
  snd (trigger_connect (refExternals plainParser) params (Resolved tt)
         (initialWatcher persisted)).

(** The same watcher once [trigger] has returned. *)
Definition readyWatcher (params : NodeParameters) (persisted : option N) : Watcher :=
  snd (trigger_ready params (Resolved tt) (connectedWatcher params persisted)).

(** The criteria of the searches in a trace, oldest first. *)
Definition searchesOf (t : list Effect) : list (list SearchCriteria) :=
  flat_map (fun e => match e with
                     | ImapSearch criteria _ => [criteria]
                     | _ => []
                     end) t.

(** The errors given to [emitError] in a trace. *)
Definition emittedErrors (t : list Effect) : list Error :=
  flat_map (fun e => match e with
                     | EmitError err => [err]
                     | _ => []
                     end) t.

(** ** Vocabulary of the statements *)

(** The body the loop of [getNewEmails] runs for the configured format. *)
Definition loopBodyFor (ext : Externals) (params : NodeParameters) (imapConnection : ImapSimple)
    : Message -> Async INodeExecutionData :=
  match format params with
  | resolved => resolvedBody ext (dataPropertyAttachmentsPrefixName params)
  | simple =>
      simpleBody ext imapConnection (downloadAttachments params)
        (if downloadAttachments params then dataPropertyAttachmentsPrefixName params else "")
  | raw => rawBody
  end.

(** [u] lies strictly above the high-water-mark [o], if there is one. *)
Definition above (o : option N) (u : N) : Prop :=
  match o with
  | None => True
  | Some l => (l < u)%N
  end.

(** The order on high-water-marks; an undefined mark is below all. *)
Definition hwm_le (a b : option N) : Prop :=
  match a, b with
  | None, _ => True
  | Some x, Some y => (x <= y)%N
  | Some _, None => False
  end.

Definition isFlagRequest (e : Effect) : bool :=
  match e with
  | ImapAddFlags _ _ => true
  | _ => false
  end.

(** The [addFlags] requests of a trace. *)
Definition flagRequests (t : list Effect) : list Effect := List.filter isFlagRequest t.

(** A request for the data of one part of a message. *)
Definition partRequest (e : Effect) : Prop :=
  exists u part, e = ImapGetPartData u part.

(** An async computation that leaves the high-water-mark alone and whose
    only calls are requests for part data. *)
Definition quiet {A} (m : Async A) : Prop :=
  forall w r w', m w = (r, w') ->
    lastMessageUid w' = lastMessageUid w /\
    exists t, trace w' = trace w ++ t /\ Forall partRequest t.

(** [e] is what the loop body [f] made of message [m]. *)
Definition producedBy (f : Message -> Async INodeExecutionData)
    (m : Message) (e : INodeExecutionData) : Prop :=
  exists w1 w2, f m w1 = (Ok e, w2).

(** The part a format cannot do without: the one [find] looks for. *)
Definition requiredPart (f : Format) (m : Message) : option MessageBodyPart :=
  match f with
  | resolved => findPart (parts m) ""
  | raw => findPart (parts m) "TEXT"
  | simple => List.find (fun p => String.eqb (which p) "HEADER") (parts m)
  end.

Definition noEvent : INodeExecutionData := {| json := ∅; binary := None |}.

Definition eventOf (r : Res INodeExecutionData * World) : INodeExecutionData :=
  match fst r with
  | Ok ev => ev
  | Err _ => noEvent
  end.

Definition eventsOf (r : Res (list INodeExecutionData) * World) : list INodeExecutionData :=
  match fst r with
  | Ok evs => evs
  | Err _ => []
  end.

(** The high-water-mark after seeing uid [u]. *)
Definition advance (o : option N) (u : N) : option N :=
  match o with
  | None => Some u
  | Some l => Some (N.max l u)
  end.

(** The largest of a starting mark and a list of uids. *)
Definition hwmMax (o : option N) (us : list N) : option N := fold_left advance us o.

(** The redundant filter of the loop: the message is skipped. *)
Definition skipped (o : option N) (m : Message) : bool :=
  match o with
  | Some l => (uid m <=? l)%N
  | None => false
  end.

Definition markAt (w : World) (u : N) : World :=
  {| lastMessageUid := Some u; trace := trace w |}.

(** The messages the loop of a cycle reaches before it ends or throws. *)
Fixpoint visited (loopBody : Message -> Async INodeExecutionData)
    (results : list Message) (w : World) : list Message :=
  match results with
  | [] => []
  | m :: rest =>
      m :: (if skipped (lastMessageUid w) m then visited loopBody rest w
            else match loopBody m (markAt w (uid m)) with
                 | (Ok _, w1) => visited loopBody rest w1
                 | (Err _, _) => []
                 end)
  end.

(** A computation whose every failure satisfies [P]. *)
Definition failsOnly {A} (P : Error -> Prop) (m : Async A) : Prop :=
  forall w e w', m w = (Err e, w') -> P e.

(** [h] is the largest element of [seen], and undefined when there is none. *)
Definition isMaxOf (h : option N) (seen : list N) : Prop :=
  match h with
  | None => seen = []
  | Some x => x ∈ seen /\ forall u, u ∈ seen -> (u <= x)%N
  end.

(** A fetch cycle: the connection it runs on and the criteria it is given. *)
Definition Cycle : Type := ImapSimple * list SearchCriteria.

Definition runCycle (ext : Externals) (params : NodeParameters) (w : World) (c : Cycle) : World :=
  snd (getNewEmails ext params (fst c) (snd c) w).

Definition runCycles (ext : Externals) (params : NodeParameters) (cs : list Cycle) (w : World)
    : World :=
  fold_left (runCycle ext params) cs w.

Definition completed (ext : Externals) (params : NodeParameters) (w : World) (c : Cycle) : bool :=
  match fst (getNewEmails ext params (fst c) (snd c) w) with
  | Ok _ => true
  | Err _ => false
  end.

(** The messages the store returned to a cycle. *)
Definition cycleResults (params : NodeParameters) (c : Cycle) : list Message :=
  match search (fst c) (snd c) (fetchOptionsFor (format params)) with
  | Resolved results => results
  | Rejected _ => []
  end.

(** The messages a cycle looked at. *)
Definition cycleVisited (ext : Externals) (params : NodeParameters) (w : World) (c : Cycle)
    : list Message :=
  visited (loopBodyFor ext params (fst c)) (cycleResults params c)
    (logged w (ImapSearch (snd c) (fetchOptionsFor (format params)))).

(** The messages looked at over a sequence of cycles, oldest first. *)
Fixpoint observed (ext : Externals) (params : NodeParameters) (cs : list Cycle) (w : World)
    : list Message :=
  match cs with
  | [] => []
  | c :: rest =>
      cycleVisited ext params w c ++ observed ext params rest (runCycle ext params w c)
  end.

(** The [addFlags] request a completed cycle ends with. *)
Definition closingFlags (params : NodeParameters) (results : list Message) : list Effect :=
  match postProcessAction params, results with
  | read, _ :: _ => [ImapAddFlags (map uid results) SEEN]
  | _, _ => []
  end.

(** [o] is the [binary] property built from the attachments [bins] under
    the prefix: absent when there is none, and otherwise the object holding
    attachment [i] under the key made of the prefix and [i], and nothing
    else. *)
Definition binaryKeyed (prefix : string) (bins : list IBinaryData)
    (o : option (gmap string IBinaryData)) : Prop :=
  match o with
  | None => bins = []
  | Some b =>
      bins <> [] /\
      (forall i, b !! propertyKey prefix i = bins !! i) /\
      (forall k, is_Some (b !! k) -> exists i, k = propertyKey prefix i)
  end.

(** [bin] is the binary data the host prepared for attachment [a]. *)
Definition preparedFrom (ext : Externals) (a : Attachment) (bin : IBinaryData) : Prop :=
  prepareBinaryData ext (content a) (att_filename a) (contentType a) = Resolved bin.



(** The batches given to [emit] in a trace. *)
Definition emittedBatches (t : list Effect) : list (list INodeExecutionData) :=
  flat_map (fun e => match e with
                     | Emit batch => [batch]
                     | _ => []
                     end) t.

(** The connection attempts of a trace. *)
Definition connectCalls (t : list Effect) : nat :=
  length (List.filter (fun e => match e with ImapConnect => true | _ => false end) t).

(** The test of the error handler, line 588. *)
Definition isTransient (code : string) : bool :=
  bool_decide (toUpperCase code ∈ ["ECONNRESET"; "EPIPE"]).

(** An event other than a connection error the handler does not recover
    from. *)
Definition recoverable (ev : Event) : Prop :=
  match ev with
  | ConnectionError code _ _ => isTransient code = true
  | _ => True
  end.

(** The header lines with key [k], in order. *)
Definition linesOf (k : string) (hs : list HeaderLine) : list HeaderLine :=
  List.filter (fun h => String.eqb (key h) k) hs.

(** The parts [getAttachment] fetches, lines 320-322. *)
Definition attachmentPartsOf (ps : list StructPart) : list StructPart :=
  List.filter (fun part =>
      match disposition part with
      | Some d => String.eqb (toUpperCase (disposition_type d)) "ATTACHMENT"
      | None => false
      end) ps.

(** The parts [getText] chooses from, lines 290-294. *)
Definition textPartsOf (ps : list StructPart) (subtype_ : string) : list StructPart :=
  List.filter (fun part =>
      String.eqb (toUpperCase (type part)) "TEXT"
      && String.eqb (toUpperCase (subtype part)) (toUpperCase subtype_)) ps.

(** The answer to the request for one attachment part, prepared. *)
Definition fetchedAttachment (ext : Externals) (conn : ImapSimple) (m : Message)
    (part : StructPart) : Outcome IBinaryData :=
  match getPartData conn m part with
  | Resolved partData => prepareBinaryData ext partData (filename <$> disposition part) None
  | Rejected reason => Rejected reason
  end.

(** The criteria [onMail] searches with: the array of its connection,
    with one more UID criterion when there is a mark. *)
Definition criteriaSent (arr : list SearchCriteria) (mark : option N) : list SearchCriteria :=
  match mark with
  | Some lastUid => arr ++ [uidCriterion lastUid]
  | None => arr
  end.

(** The text [onMail] logs when a cycle fails, line 556. *)
Definition fetchErrorText : string :=
  "Email Read Imap node encountered an error fetching new emails".

(** The errors handed to [emitError] so far, followed by those queued for
    it. *)
Definition delivered (w : Watcher) : list Error :=
  emittedErrors (trace (world w)) ++ waiting w.

(** The error of the fetch cycle an event starts, if it starts one that
    fails. *)
Definition fetchError (ext : Externals) (params : NodeParameters) (w : Watcher) (ev : Event)
    : list Error :=
  match ev with
  | NewMail k current =>
      match connection w, closures w !! k with
      | Some _, Some arr =>
          match fst (getNewEmails ext params current
                       (criteriaSent arr (lastMessageUid (world w))) (world w)) with
          | Err e => [e]
          | Ok _ => []
          end
      | _, _ => []
      end
  | _ => []
  end.

(** The names the simple format sets at the top level of [json] itself,
    lines 433-436 and 453: the two texts and the metadata object. *)
Definition reserved (k : string) : Prop :=
  k = "metadata" \/ k = "textHtml" \/ k = "textPlain".

(** The error of reading [body] of an undefined header part, line 443. *)
Definition headerTypeError : Error :=
  TypeError "Cannot read properties of undefined (reading 'body')".

(** A computation that makes no call at all. *)
Definition silent {A} (m : Async A) : Prop :=
  forall w r w', m w = (r, w') -> w' = w.

(** ** Frame lemmas: what the helpers leave alone *)

Lemma flagRequests_app t1 t2 : flagRequests (t1 ++ t2) = flagRequests t1 ++ flagRequests t2.
Proof. unfold flagRequests. apply List.filter_app. Qed.

Lemma partRequests_no_flags t : Forall partRequest t -> flagRequests t = [].
Proof.
  induction 1 as [|e t [u [part ->]] _ IH]; [done|]. exact IH.
Qed.

Lemma partRequests_no_errors t : Forall partRequest t -> emittedErrors t = [].
Proof.
  induction 1 as [|e t [u [part ->]] _ IH]; [done|]. exact IH.
Qed.

Lemma quiet_ret {A} (a : A) : quiet (ret a).
Proof.
  intros w r w' H. inversion H; subst. split; [done|].
  exists []. split; [by rewrite app_nil_r | constructor].
Qed.

Lemma quiet_throw {A} (e : Error) : quiet (@throw A e).
Proof.
  intros w r w' H. inversion H; subst. split; [done|].
  exists []. split; [by rewrite app_nil_r | constructor].
Qed.

Lemma quiet_await {A} (o : Outcome A) : quiet (await o).
Proof. destruct o; [apply quiet_ret | apply quiet_throw]. Qed.

Lemma quiet_perform (e : Effect) : partRequest e -> quiet (perform e).
Proof.
  intros He w r w' H. inversion H; subst; simpl. split; [done|].
  exists [e]. split; [done|]. by constructor.
Qed.

Lemma quiet_bind {A B} (m : Async A) (k : A -> Async B) :
  quiet m -> (forall a, quiet (k a)) -> quiet (bind m k).
Proof.
  intros Hm Hk w r w' H. unfold bind in H.
  destruct (m w) as [[a|e] w1] eqn:E.
  - destruct (Hm _ _ _ E) as [U1 [t1 [T1 F1]]].
    destruct (Hk a _ _ _ H) as [U2 [t2 [T2 F2]]].
    split; [congruence|]. exists (t1 ++ t2). split.
    + rewrite T2, T1. by rewrite app_assoc.
    + by apply Forall_app.
  - inversion H; subst. exact (Hm _ _ _ E).
Qed.

Lemma quiet_try_catch {A} (m : Async A) (h : Error -> Async A) :
  quiet m -> (forall e, quiet (h e)) -> quiet (try_catch m h).
Proof.
  intros Hm Hh w r w' H. unfold try_catch in H.
  destruct (m w) as [[a|e] w1] eqn:E.
  - inversion H; subst. exact (Hm _ _ _ E).
  - destruct (Hm _ _ _ E) as [U1 [t1 [T1 F1]]].
    destruct (Hh e _ _ _ H) as [U2 [t2 [T2 F2]]].
    split; [congruence|]. exists (t1 ++ t2). split.
    + rewrite T2, T1. by rewrite app_assoc.
    + by apply Forall_app.
Qed.

Lemma quiet_forAwait {A B} (f : A -> Async B) (xs : list A) :
  (forall x, quiet (f x)) -> quiet (forAwait f xs).
Proof.
  intros Hf. induction xs as [|x xs IH]; simpl.
  - apply quiet_ret.
  - apply quiet_bind; [apply Hf|]. intros y.
    apply quiet_bind; [exact IH|]. intros ys. apply quiet_ret.
Qed.

Create HintDb quiet.
#[local] Hint Resolve quiet_ret quiet_throw quiet_await quiet_bind quiet_try_catch
  quiet_forAwait : quiet.

Lemma quiet_storeAttachments ext prefix atts : forall i acc,
  quiet (storeAttachments ext prefix i atts acc).
Proof.
  induction atts as [|a atts IH]; intros i acc; simpl; auto with quiet.
Qed.

Lemma quiet_parseRawEmail ext b prefix : quiet (parseRawEmail ext b prefix).
Proof.
  unfold parseRawEmail. apply quiet_bind; [apply quiet_await|]. intros mailData.
  apply quiet_bind; [|intros; apply quiet_ret].
  destruct (attachments mailData); [apply quiet_storeAttachments | apply quiet_ret].
Qed.

Lemma quiet_getText conn ps m sub : quiet (getText conn ps m sub).
Proof.
  unfold getText. destruct (struct m); [|apply quiet_ret].
  destruct (List.filter _ ps); [apply quiet_ret|].
  apply quiet_try_catch; [|intros; apply quiet_ret].
  apply quiet_bind; [apply quiet_perform; by eexists _, _ | intros; apply quiet_await].
Qed.

Lemma quiet_getAttachment ext conn ps m : quiet (getAttachment ext conn ps m).
Proof.
  unfold getAttachment. destruct (struct m); [|apply quiet_ret].
  apply quiet_bind.
  - apply quiet_forAwait. intros x. apply quiet_perform. by eexists _, _.
  - intros _. apply quiet_forAwait. intros x.
    apply quiet_bind; [apply quiet_await | intros; apply quiet_await].
Qed.

Lemma quiet_rawBody m : quiet (rawBody m).
Proof. unfold rawBody. destruct (findPart _ _); auto with quiet. Qed.

Lemma quiet_resolvedBody ext prefix m : quiet (resolvedBody ext prefix m).
Proof.
  unfold resolvedBody. destruct (findPart _ _); [apply quiet_parseRawEmail | apply quiet_throw].
Qed.

Lemma quiet_simpleBody ext conn dl prefix m : quiet (simpleBody ext conn dl prefix m).
Proof.
  unfold simpleBody. apply quiet_bind; [apply quiet_await|]. intros ps.
  apply quiet_bind; [apply quiet_getText|]. intros html.
  apply quiet_bind; [apply quiet_getText|]. intros plain.
  destruct (List.filter _ (parts m)); [apply quiet_throw|].
  destruct (copyHeaders _ _ _ _) as [top metadata].
  destruct dl; [|apply quiet_ret].
  apply quiet_bind; [apply quiet_getAttachment|]. intros [|a atts]; apply quiet_ret.
Qed.

Lemma quiet_loopBodyFor ext params conn m : quiet (loopBodyFor ext params conn m).
Proof.
  unfold loopBodyFor. destruct (format params);
    [apply quiet_rawBody | apply quiet_resolvedBody | apply quiet_simpleBody].
Qed.

(** ** The loop over the search results *)

Lemma forEachMessage_cons body m rest acc w :
  forEachMessage body (m :: rest) acc w =
  if skipped (lastMessageUid w) m then forEachMessage body rest acc w
  else match body m (markAt w (uid m)) with
       | (Ok e, w1) => forEachMessage body rest (acc ++ [e]) w1
       | (Err e, w1) => (Err e, w1)
       end.
Proof.
  simpl. unfold bind, getLastMessageUid, skipped, markAt.
  destruct (lastMessageUid w) as [l|]; simpl.
  - destruct (N.leb_spec (uid m) l) as [Hle|Hlt]; [done|].
    assert (Hlt' : (l <? uid m)%N = true) by (apply N.ltb_lt; lia).
    rewrite Hlt'. simpl. done.
  - done.
Qed.

Lemma advance_skipped o m : skipped o m = true -> advance o (uid m) = o.
Proof.
  destruct o as [l|]; simpl; [|done]. intros H. apply N.leb_le in H.
  f_equal. lia.
Qed.

Lemma advance_not_skipped o m : skipped o m = false -> advance o (uid m) = Some (uid m).
Proof.
  destruct o as [l|]; simpl; [|done]. intros H. apply N.leb_gt in H.
  f_equal. lia.
Qed.

Lemma not_skipped_above o m : skipped o m = false -> above o (uid m).
Proof. destruct o as [l|]; simpl; [|done]. intros H. by apply N.leb_gt in H. Qed.

Lemma hwm_le_refl o : hwm_le o o.
Proof. destruct o; simpl; [lia|done]. Qed.

Lemma hwm_le_trans a b c : hwm_le a b -> hwm_le b c -> hwm_le a c.
Proof. destruct a, b, c; simpl; try done; lia. Qed.

Lemma hwm_le_advance o u : hwm_le o (advance o u).
Proof. destruct o; simpl; [lia|done]. Qed.

Lemma hwm_le_hwmMax us : forall o, hwm_le o (hwmMax o us).
Proof.
  induction us as [|u us IH]; intros o; simpl; [apply hwm_le_refl|].
  eapply hwm_le_trans; [apply hwm_le_advance | apply IH].
Qed.

(** Whatever the outcome, the loop leaves the mark at the largest uid among
    the messages it reached, and flags nothing. *)
Lemma forEachMessage_frame body :
  (forall m, quiet (body m)) ->
  forall results acc w r w',
    forEachMessage body results acc w = (r, w') ->
    lastMessageUid w' = hwmMax (lastMessageUid w) (map uid (visited body results w)) /\
    exists t, trace w' = trace w ++ t /\ Forall partRequest t.
Proof.
  intros Hq. induction results as [|m rest IH]; intros acc w r w' H.
  - inversion H; subst. split; [done|]. exists []. split; [by rewrite app_nil_r | constructor].
  - rewrite forEachMessage_cons in H. simpl visited.
    destruct (skipped (lastMessageUid w) m) eqn:Hs.
    + destruct (IH _ _ _ _ H) as [U T]. split; [|exact T].
      simpl. by rewrite (advance_skipped _ _ Hs).
    + simpl. rewrite (advance_not_skipped _ _ Hs).
      destruct (body m (markAt w (uid m))) as [[e|e] w1] eqn:E;
        destruct (Hq m _ _ _ E) as [U1 [t1 [T1 F1]]]; simpl in U1, T1.
      * destruct (IH _ _ _ _ H) as [U [t [T F]]]. split; [by rewrite U, U1|].
        exists (t1 ++ t). split; [by rewrite T, T1, app_assoc|].
        by apply Forall_app.
      * inversion H; subst. split; [done|]. by exists t1.
Qed.

Lemma visited_completed body results : forall acc w evs w',
  forEachMessage body results acc w = (Ok evs, w') -> visited body results w = results.
Proof.
  induction results as [|m rest IH]; intros acc w evs w' H; [done|].
  rewrite forEachMessage_cons in H. simpl.
  destruct (skipped (lastMessageUid w) m).
  - f_equal. eapply IH, H.
  - destruct (body m (markAt w (uid m))) as [[e|e] w1]; [|done].
    f_equal. eapply IH, H.
Qed.

(** The events of a completed loop come, in order, from a sublist of the
    results lying strictly above the mark the loop started from. *)
Lemma forEachMessage_events body :
  (forall m, quiet (body m)) ->
  forall results acc w evs w',
    forEachMessage body results acc w = (Ok evs, w') ->
    exists ms evs',
      evs = acc ++ evs' /\ sublist ms results /\
      Forall2 (producedBy body) ms evs' /\
      Forall (fun m => above (lastMessageUid w) (uid m)) ms.
Proof.
  intros Hq. induction results as [|m rest IH]; intros acc w evs w' H.
  - inversion H; subst. exists [], []. rewrite app_nil_r. repeat split; constructor.
  - rewrite forEachMessage_cons in H.
    destruct (skipped (lastMessageUid w) m) eqn:Hs.
    + destruct (IH _ _ _ _ H) as (ms & evs' & -> & Hsub & Hp & Ha).
      exists ms, evs'. repeat split; [by constructor | done | done].
    + destruct (body m (markAt w (uid m))) as [[e|e] w1] eqn:E; [|done].
      destruct (Hq m _ _ _ E) as [U1 _]. simpl in U1.
      destruct (IH _ _ _ _ H) as (ms & evs' & -> & Hsub & Hp & Ha).
      exists (m :: ms), (e :: evs'). repeat split.
      * by rewrite <- app_assoc.
      * by constructor.
      * constructor; [by exists (markAt w (uid m)), w1 | done].
      * constructor; [by apply not_skipped_above|].
        eapply Forall_impl; [exact Ha|]. intros x Hx. simpl in Hx.
        rewrite U1 in Hx. simpl in Hx.
        apply not_skipped_above in Hs. destruct (lastMessageUid w); simpl in *; [lia|done].
Qed.

(** A loop that throws stops at a message that passed the filter: the mark
    is that message's uid, strictly above the mark the loop started from. *)
Lemma forEachMessage_failure body :
  (forall m, quiet (body m)) ->
  forall results acc w e w',
    forEachMessage body results acc w = (Err e, w') ->
    exists pre m post w1 w2,
      results = pre ++ m :: post /\ body m w1 = (Err e, w2) /\
      lastMessageUid w' = Some (uid m) /\ above (lastMessageUid w) (uid m).
Proof.
  intros Hq. induction results as [|m rest IH]; intros acc w e w' H; [done|].
  rewrite forEachMessage_cons in H.
  destruct (skipped (lastMessageUid w) m) eqn:Hs.
  - destruct (IH _ _ _ _ H) as (pre & m' & post & w1 & w2 & -> & Hb & U & Ha).
    by exists (m :: pre), m', post, w1, w2.
  - destruct (body m (markAt w (uid m))) as [[ev|e'] w1] eqn:E.
    + destruct (Hq m _ _ _ E) as [U1 _]. simpl in U1.
      destruct (IH _ _ _ _ H) as (pre & m' & post & w3 & w4 & -> & Hb & U & Ha).
      exists (m :: pre), m', post, w3, w4. repeat split; try done.
      rewrite U1 in Ha. simpl in Ha.
      apply not_skipped_above in Hs. destruct (lastMessageUid w); simpl in *; [lia|done].
    + inversion H; subst. destruct (Hq m _ _ _ E) as [U1 _]. simpl in U1.
      exists [], m, rest, (markAt w (uid m)), w'. repeat split; try done.
      by apply not_skipped_above.
Qed.

(** ** The fetch cycle, unfolded *)

Lemma getNewEmails_unfold ext params conn crit w :
  getNewEmails ext params conn crit w =
  let w0 := logged w (ImapSearch crit (fetchOptionsFor (format params))) in
  match search conn crit (fetchOptionsFor (format params)) with
  | Rejected reason => (Err (ExternalError reason), w0)
  | Resolved results =>
      match forEachMessage (loopBodyFor ext params conn) results [] w0 with
      | (Err e, w1) => (Err e, w1)
      | (Ok evs, w1) =>
          match closingFlags params results with
          | [] => (Ok evs, w1)
          | request :: _ =>
              match addFlags conn (map uid results) SEEN with
              | Resolved _ => (Ok evs, logged w1 request)
              | Rejected reason => (Err (ExternalError reason), logged w1 request)
              end
          end
      end
  end.
Proof.
  unfold getNewEmails, loopBodyFor, closingFlags, bind, perform. simpl.
  destruct (search conn crit _) as [results|reason]; simpl; [|done].
  destruct (format params);
    (match goal with
     | |- context [forEachMessage ?b ?r ?a ?w0] =>
         destruct (forEachMessage b r a w0) as [[evs|e] w1]
     end; [|done];
     destruct (postProcessAction params); [|done];
     destruct results as [|m rest]; [done|]; simpl;
     destruct (addFlags conn _ _); done).
Qed.

(** ** Which errors the helpers can raise *)

Section FailsOnly.

Context (P : Error -> Prop) (P_external : forall reason, P (ExternalError reason)).

Lemma failsOnly_ret {A} (a : A) : failsOnly P (ret a).
Proof. intros w e w' H. inversion H. Qed.

Lemma failsOnly_throw {A} e : P e -> failsOnly P (@throw A e).
Proof. intros He w e' w' H. inversion H; subst. exact He. Qed.

Lemma failsOnly_await {A} (o : Outcome A) : failsOnly P (await o).
Proof. destruct o; [apply failsOnly_ret | apply failsOnly_throw, P_external]. Qed.

Lemma failsOnly_perform e : failsOnly P (perform e).
Proof. intros w e' w' H. inversion H. Qed.

Lemma failsOnly_bind {A B} (m : Async A) (k : A -> Async B) :
  failsOnly P m -> (forall a, failsOnly P (k a)) -> failsOnly P (bind m k).
Proof.
  intros Hm Hk w e w' H. unfold bind in H.
  destruct (m w) as [[a|e'] w1] eqn:E.
  - exact (Hk a _ _ _ H).
  - inversion H; subst. exact (Hm _ _ _ E).
Qed.

Lemma failsOnly_try_catch {A} (m : Async A) (h : Error -> Async A) :
  (forall e, failsOnly P (h e)) -> failsOnly P (try_catch m h).
Proof.
  intros Hh w e w' H. unfold try_catch in H.
  destruct (m w) as [[a|e'] w1] eqn:E; [inversion H|].
  exact (Hh e' _ _ _ H).
Qed.

Lemma failsOnly_forAwait {A B} (f : A -> Async B) (xs : list A) :
  (forall x, failsOnly P (f x)) -> failsOnly P (forAwait f xs).
Proof.
  intros Hf. induction xs as [|x xs IH]; simpl; [apply failsOnly_ret|].
  apply failsOnly_bind; [apply Hf|]. intros y.
  apply failsOnly_bind; [exact IH|]. intros ys. apply failsOnly_ret.
Qed.

Lemma failsOnly_storeAttachments ext prefix atts : forall i acc,
  failsOnly P (storeAttachments ext prefix i atts acc).
Proof.
  induction atts as [|a atts IH]; intros i acc; simpl; [apply failsOnly_ret|].
  apply failsOnly_bind; [apply failsOnly_await|]. intros b. apply IH.
Qed.

Lemma failsOnly_parseRawEmail ext b prefix : failsOnly P (parseRawEmail ext b prefix).
Proof.
  unfold parseRawEmail. apply failsOnly_bind; [apply failsOnly_await|]. intros mailData.
  apply failsOnly_bind; [|intros; apply failsOnly_ret].
  destruct (attachments mailData); [apply failsOnly_storeAttachments | apply failsOnly_ret].
Qed.

Lemma failsOnly_getText conn ps m sub : failsOnly P (getText conn ps m sub).
Proof.
  unfold getText. destruct (struct m); [|apply failsOnly_ret].
  destruct (List.filter _ ps); [apply failsOnly_ret|].
  apply failsOnly_try_catch. intros; apply failsOnly_ret.
Qed.

Lemma failsOnly_getAttachment ext conn ps m : failsOnly P (getAttachment ext conn ps m).
Proof.
  unfold getAttachment. destruct (struct m); [|apply failsOnly_ret].
  apply failsOnly_bind.
  - apply failsOnly_forAwait. intros x. apply failsOnly_perform.
  - intros _. apply failsOnly_forAwait. intros x.
    apply failsOnly_bind; [apply failsOnly_await | intros; apply failsOnly_await].
Qed.

Lemma failsOnly_simpleBody ext conn dl prefix m :
  (forall text, P (TypeError text)) -> failsOnly P (simpleBody ext conn dl prefix m).
Proof.
  intros P_type. unfold simpleBody. apply failsOnly_bind; [apply failsOnly_await|]. intros ps.
  apply failsOnly_bind; [apply failsOnly_getText|]. intros html.
  apply failsOnly_bind; [apply failsOnly_getText|]. intros plain.
  destruct (List.filter _ (parts m)); [apply failsOnly_throw, P_type|].
  destruct (copyHeaders _ _ _ _) as [top metadata].
  destruct dl; [|apply failsOnly_ret].
  apply failsOnly_bind; [apply failsOnly_getAttachment|].
  intros [|a atts]; apply failsOnly_ret.
Qed.

End FailsOnly.

(** A loop body that raises the parse error ran on a message without the
    part its format requires, and the format is not the simple one. *)
Lemma parseError_origin ext params conn m w1 w2 :
  loopBodyFor ext params conn m w1 = (Err parseError, w2) ->
  format params <> simple /\ requiredPart (format params) m = None.
Proof.
  assert (Hext : forall reason, ExternalError reason <> parseError) by done.
  assert (Htype : forall text, TypeError text <> parseError) by done.
  unfold loopBodyFor, requiredPart. destruct (format params); intros H.
  - split; [done|]. unfold rawBody in H. destruct (findPart _ _); [inversion H | done].
  - split; [done|]. unfold resolvedBody in H. destruct (findPart _ _); [|done].
    exfalso.
    by apply (failsOnly_parseRawEmail (fun e => e <> parseError) Hext _ _ _ _ _ _ H).
  - exfalso.
    by apply (failsOnly_simpleBody (fun e => e <> parseError) Hext _ _ _ _ _ Htype _ _ _ H).
Qed.

(** ** Claims on the fetch cycle *)

(** C1. In every format, the events a fetch cycle returns (the batch
    [onMail] emits) come from messages of the search result whose uid is
    strictly above the high-water-mark held when the cycle started: a
    message at or below it yields no event, although the search returned
    it. *)
Theorem cycle_emits_only_above_mark ext params conn crit w evs w' :
  getNewEmails ext params conn crit w = (Ok evs, w') ->
  exists results ms,
    search conn crit (fetchOptionsFor (format params)) = Resolved results /\
    sublist ms results /\
    Forall2 (producedBy (loopBodyFor ext params conn)) ms evs /\
    forall m l, m ∈ ms -> lastMessageUid w = Some l -> (l < uid m)%N.
Proof.
  rewrite getNewEmails_unfold. cbv zeta.
  destruct (search conn crit _) as [results|reason]; [|done].
  destruct (forEachMessage _ results [] _) as [[evs0|e] w1] eqn:Hloop; [|done].
  intros H.
  assert (Hevs : evs = evs0).
  { destruct (closingFlags params results); [by inversion H|].
    destruct (addFlags conn _ _); by inversion H. }
  subst evs0.
  destruct (forEachMessage_events _ (quiet_loopBodyFor ext params conn) _ _ _ _ _ Hloop)
    as (ms & evs' & Heq & Hsub & Hp & Ha).
  simpl in Heq. subst evs'.
  exists results, ms. repeat split; try done.
  intros m l Hm Hl. rewrite Forall_forall in Ha. specialize (Ha m Hm).
  simpl in Ha. rewrite Hl in Ha. exact Ha.
Qed.

Lemma cycle_emits_only_above_mark_witness :
  let r := getNewEmails (refExternals plainParser) (paramsFor raw read) (storeWith batch579)
             unseen (freshWorld (Some 7%N)) in
  exists results ms,
    search (storeWith batch579) unseen (fetchOptionsFor raw) = Resolved results /\
    sublist ms results /\
    Forall2 (producedBy (loopBodyFor (refExternals plainParser) (paramsFor raw read)
                           (storeWith batch579))) ms (eventsOf r) /\
    forall m l, m ∈ ms -> lastMessageUid (freshWorld (Some 7%N)) = Some l -> (l < uid m)%N.
Proof.
  apply (cycle_emits_only_above_mark (refExternals plainParser) (paramsFor raw read)
           (storeWith batch579) unseen (freshWorld (Some 7%N))
           (eventsOf (getNewEmails (refExternals plainParser) (paramsFor raw read)
                        (storeWith batch579) unseen (freshWorld (Some 7%N))))
           (snd (getNewEmails (refExternals plainParser) (paramsFor raw read)
                   (storeWith batch579) unseen (freshWorld (Some 7%N))))).
  vm_compute. reflexivity.
Defined.

(** C2, as stated, fails: with [read] as the action and a batch of two
    messages of which the second has no TEXT section, the raw cycle started
    at mark 3 ends in the parse error with the mark at 7 (and nothing
    flagged). *)
Lemma parse_failure_moves_mark_counterexample :
  let r := getNewEmails (refExternals plainParser) (paramsFor raw read) (storeWith batchBroken)
             unseen (freshWorld (Some 3%N)) in
  fst r = Err parseError /\
  lastMessageUid (freshWorld (Some 3%N)) = Some 3%N /\
  lastMessageUid (snd r) = Some 7%N /\
  flagRequests (trace (snd r)) = [].
Proof. vm_compute. done. Qed.

(** C2, amended. A fetch cycle that fails with the parse error returns no
    event and has flagged no message; the format is raw or resolved; and
    the high-water-mark has been advanced: it is the uid of a message of the
    search result that lacks the required section, strictly above the mark
    the cycle started from. *)
Theorem parse_failure_flags_nothing_mark_at_failed ext params conn crit w w' :
  getNewEmails ext params conn crit w = (Err parseError, w') ->
  flagRequests (trace w') = flagRequests (trace w) /\
  exists results m,
    search conn crit (fetchOptionsFor (format params)) = Resolved results /\
    m ∈ results /\
    format params <> simple /\
    requiredPart (format params) m = None /\
    lastMessageUid w' = Some (uid m) /\
    above (lastMessageUid w) (uid m).
Proof.
  rewrite getNewEmails_unfold. cbv zeta.
  destruct (search conn crit _) as [results|reason]; [|done].
  destruct (forEachMessage _ results [] _) as [[evs0|e] w1] eqn:Hloop.
  - destruct (closingFlags params results); [done|]. destruct (addFlags conn _ _); done.
  - intros H. inversion H; subst e w1. clear H.
    destruct (forEachMessage_frame _ (quiet_loopBodyFor ext params conn) _ _ _ _ _ Hloop)
      as [_ (t & T & F)].
    destruct (forEachMessage_failure _ (quiet_loopBodyFor ext params conn) _ _ _ _ _ Hloop)
      as (pre & m & post & w1 & w2 & -> & Hb & U & Ha).
    destruct (parseError_origin _ _ _ _ _ _ Hb) as [Hf Hr].
    split.
    + rewrite T. simpl.
      by rewrite !flagRequests_app, (partRequests_no_flags _ F), !app_nil_r.
    + exists (pre ++ m :: post), m. repeat split; try done.
      rewrite elem_of_app, elem_of_cons. by right; left.
Qed.

Lemma parse_failure_flags_nothing_mark_at_failed_witness :
  let w := freshWorld (Some 3%N) in
  let w' := snd (getNewEmails (refExternals plainParser) (paramsFor raw read)
                   (storeWith batchBroken) unseen w) in
  flagRequests (trace w') = flagRequests (trace w) /\
  exists results m,
    search (storeWith batchBroken) unseen (fetchOptionsFor raw) = Resolved results /\
    m ∈ results /\
    raw <> simple /\
    requiredPart raw m = None /\
    lastMessageUid w' = Some (uid m) /\
    above (lastMessageUid w) (uid m).
Proof.
  apply (parse_failure_flags_nothing_mark_at_failed (refExternals plainParser)
           (paramsFor raw read) (storeWith batchBroken) unseen (freshWorld (Some 3%N))).
  vm_compute. reflexivity.
Defined.

(** ** The high-water-mark over a sequence of cycles *)

Lemma advance_comm o a b : advance (advance o a) b = advance (advance o b) a.
Proof. destruct o; simpl; f_equal; lia. Qed.

Lemma hwmMax_app o us vs : hwmMax o (us ++ vs) = hwmMax (hwmMax o us) vs.
Proof. unfold hwmMax. apply fold_left_app. Qed.

Lemma hwmMax_perm us us' : us ≡ₚ us' -> forall o, hwmMax o us = hwmMax o us'.
Proof.
  induction 1 as [|x l l' _ IH|x y l|l l' l'' _ IH1 _ IH2]; intros o; simpl.
  - done.
  - apply IH.
  - by rewrite advance_comm.
  - by rewrite IH1, IH2.
Qed.

Lemma hwmMax_isMax us : forall o, isMaxOf (hwmMax o us) (option_list o ++ us).
Proof.
  induction us as [|u us IH]; intros o.
  - simpl. rewrite app_nil_r. destruct o as [l|]; simpl; [|done].
    split; [by apply list_elem_of_singleton|].
    intros u Hu. apply list_elem_of_singleton in Hu. lia.
  - simpl. specialize (IH (advance o u)).
    pose proof (hwm_le_hwmMax us (advance o u)) as Hle.
    destruct (hwmMax (advance o u) us) as [x|] eqn:Hx.
    + simpl in IH. destruct IH as [Hin Hmax]. destruct o as [l|]; simpl in *.
      * split.
        -- apply elem_of_cons in Hin as [->|Hin].
           ++ destruct (N.max_spec l u) as [[_ ->]|[_ ->]];
                [by right; left | by left].
           ++ by right; right.
        -- intros v Hv. apply elem_of_cons in Hv as [->|Hv].
           ++ pose proof (Hmax (N.max l u) ltac:(by left)). lia.
           ++ apply elem_of_cons in Hv as [->|Hv].
              ** pose proof (Hmax (N.max l u) ltac:(by left)). lia.
              ** apply Hmax. by right.
      * split; [done|]. exact Hmax.
    + destruct o; simpl in Hle; done.
Qed.

Lemma runCycle_mark ext params w c :
  lastMessageUid (runCycle ext params w c) =
  hwmMax (lastMessageUid w) (map uid (cycleVisited ext params w c)).
Proof.
  unfold runCycle, cycleVisited, cycleResults. rewrite getNewEmails_unfold. cbv zeta.
  destruct (search (fst c) (snd c) _) as [results|reason]; [|done].
  destruct (forEachMessage _ results [] _) as [[evs|e] w1] eqn:Hloop;
    destruct (forEachMessage_frame _ (quiet_loopBodyFor ext params (fst c)) _ _ _ _ _ Hloop)
      as [U _]; simpl in U.
  - destruct (closingFlags params results); [done|].
    destruct (addFlags (fst c) _ _); done.
  - done.
Qed.

Lemma runCycles_mark ext params cs : forall w,
  lastMessageUid (runCycles ext params cs w) =
  hwmMax (lastMessageUid w) (map uid (observed ext params cs w)).
Proof.
  induction cs as [|c cs IH]; intros w; [done|].
  simpl. rewrite map_app, hwmMax_app, <- runCycle_mark. apply IH.
Qed.

Lemma completed_visited ext params w c :
  completed ext params w c = true -> cycleVisited ext params w c = cycleResults params c.
Proof.
  unfold completed, cycleVisited, cycleResults. rewrite getNewEmails_unfold. cbv zeta.
  destruct (search (fst c) (snd c) _) as [results|reason]; [|done].
  destruct (forEachMessage _ results [] _) as [[evs|e] w1] eqn:Hloop; [|done].
  intros _. eapply visited_completed, Hloop.
Qed.

(** C3. Over any sequence of fetch cycles the high-water-mark never
    decreases; after the sequence it is the largest uid among the mark the
    watcher started from and the messages the cycles looked at; a completed
    cycle looked at every message the store returned; and two completed
    cycles whose results are permutations of each other leave the same
    mark. *)
Theorem mark_is_monotone_running_maximum ext params (cs : list Cycle) (w : World) :
  (forall cs1 cs2, cs = cs1 ++ cs2 ->
     hwm_le (lastMessageUid (runCycles ext params cs1 w))
            (lastMessageUid (runCycles ext params cs w))) /\
  isMaxOf (lastMessageUid (runCycles ext params cs w))
          (option_list (lastMessageUid w) ++ map uid (observed ext params cs w)) /\
  (forall c w0, completed ext params w0 c = true ->
     cycleVisited ext params w0 c = cycleResults params c) /\
  (forall c c' w0,
     completed ext params w0 c = true -> completed ext params w0 c' = true ->
     cycleResults params c ≡ₚ cycleResults params c' ->
     lastMessageUid (runCycle ext params w0 c) = lastMessageUid (runCycle ext params w0 c')).
Proof.
  repeat split.
  - intros cs1 cs2 ->. unfold runCycles at 2. rewrite fold_left_app.
    fold (runCycles ext params cs1 w).
    fold (runCycles ext params cs2 (runCycles ext params cs1 w)).
    rewrite (runCycles_mark ext params cs2). apply hwm_le_hwmMax.
  - rewrite runCycles_mark. apply hwmMax_isMax.
  - intros c w0. apply completed_visited.
  - intros c c' w0 Hc Hc' Hperm. rewrite !runCycle_mark.
    rewrite (completed_visited _ _ _ _ Hc), (completed_visited _ _ _ _ Hc').
    apply hwmMax_perm. by apply fmap_Permutation.
Qed.

Lemma mark_is_monotone_running_maximum_witness :
  let ext := refExternals plainParser in
  let params := paramsFor raw read in
  let c := (storeWith batch579, unseen) in
  let c' := (storeWith batch975, unseen) in
  let w := freshWorld None in
  hwm_le (lastMessageUid (runCycles ext params [c] w))
         (lastMessageUid (runCycles ext params [c; (storeWith batchBroken, unseen)] w)) /\
  isMaxOf (lastMessageUid (runCycles ext params [c; (storeWith batchBroken, unseen)] w))
          (option_list (lastMessageUid w) ++
           map uid (observed ext params [c; (storeWith batchBroken, unseen)] w)) /\
  cycleVisited ext params w c = cycleResults params c /\
  lastMessageUid (runCycle ext params w c) = lastMessageUid (runCycle ext params w c').
Proof.
  destruct (mark_is_monotone_running_maximum (refExternals plainParser) (paramsFor raw read)
              [(storeWith batch579, unseen); (storeWith batchBroken, unseen)] (freshWorld None))
    as (Hmono & Hmax & Hvisited & Horder).
  split; [|split; [|split]].
  - apply (Hmono [(storeWith batch579, unseen)] [(storeWith batchBroken, unseen)]). reflexivity.
  - exact Hmax.
  - apply Hvisited. vm_compute. reflexivity.
  - apply Horder.
    + vm_compute. reflexivity.
    + vm_compute. reflexivity.
    + change (batch579 ≡ₚ reverse batch579). symmetry. apply reverse_Permutation.
Defined.

(** ** Flagging *)

(** C4, as stated, fails: with [read] as the action and the mark at 7, the
    raw cycle over messages 7 and 9 returns one event (message 9) and its
    single flag request names both uids: message 7, skipped by the filter
    and never emitted, is marked as read. *)
Lemma skipped_message_is_flagged_counterexample :
  let r := getNewEmails (refExternals plainParser) (paramsFor raw read) (storeWith batch79)
             unseen (freshWorld (Some 7%N)) in
  length (eventsOf r) = 1%nat /\
  skipped (Some 7%N) (mail 7 [textPart "seven"]) = true /\
  flagRequests (trace (snd r)) = [ImapAddFlags [7%N; 9%N] SEEN].
Proof. vm_compute. done. Qed.

(** C4, amended. A completed cycle issues no flag request while the batch
    is processed; when the action is [read] and the search result is not
    empty, its last call is one [addFlags] request carrying the uids of all
    messages the search returned, in order, those skipped by the filter
    included; otherwise it issues none. *)
Theorem completed_cycle_flags_whole_result ext params conn crit w evs w' :
  getNewEmails ext params conn crit w = (Ok evs, w') ->
  exists results t,
    search conn crit (fetchOptionsFor (format params)) = Resolved results /\
    trace w' = trace w ++ t ++ closingFlags params results /\
    flagRequests t = [] /\
    closingFlags params results =
      match postProcessAction params, results with
      | read, _ :: _ => [ImapAddFlags (map uid results) SEEN]
      | _, _ => []
      end.
Proof.
  rewrite getNewEmails_unfold. cbv zeta.
  destruct (search conn crit _) as [results|reason]; [|done].
  destruct (forEachMessage _ results [] _) as [[evs0|e] w1] eqn:Hloop; [|done].
  destruct (forEachMessage_frame _ (quiet_loopBodyFor ext params conn) _ _ _ _ _ Hloop)
    as [_ (t & T & F)]. simpl in T.
  intros H.
  exists results, (ImapSearch crit (fetchOptionsFor (format params)) :: t).
  split; [done|]. split; [|split; [exact (partRequests_no_flags _ F) | done]].
  unfold closingFlags in *.
  destruct (postProcessAction params), results as [|m rest];
    try (inversion H; subst; rewrite T, app_nil_r, <- app_assoc; done).
  destruct (addFlags conn _ _); inversion H; subst. simpl.
  rewrite T. by rewrite <- !app_assoc.
Qed.

Lemma completed_cycle_flags_whole_result_witness :
  let w := freshWorld (Some 7%N) in
  let r := getNewEmails (refExternals plainParser) (paramsFor raw read) (storeWith batch79)
             unseen w in
  exists results t,
    search (storeWith batch79) unseen (fetchOptionsFor raw) = Resolved results /\
    trace (snd r) = trace w ++ t ++ closingFlags (paramsFor raw read) results /\
    flagRequests t = [] /\
    closingFlags (paramsFor raw read) results =
      match read, results with
      | read, _ :: _ => [ImapAddFlags (map uid results) SEEN]
      | _, _ => []
      end.
Proof.
  apply (completed_cycle_flags_whole_result (refExternals plainParser) (paramsFor raw read)
           (storeWith batch79) unseen (freshWorld (Some 7%N))
           (eventsOf (getNewEmails (refExternals plainParser) (paramsFor raw read)
                        (storeWith batch79) unseen (freshWorld (Some 7%N))))).
  vm_compute. reflexivity.
Defined.

(** ** Missing sections *)

Lemma forEachMessage_app body pre : forall rest acc w,
  forEachMessage body (pre ++ rest) acc w =
  match forEachMessage body pre acc w with
  | (Ok evs, w1) => forEachMessage body rest evs w1
  | (Err e, w1) => (Err e, w1)
  end.
Proof.
  induction pre as [|m pre IH]; intros rest acc w; [done|].
  rewrite <- app_comm_cons, !forEachMessage_cons.
  destruct (skipped (lastMessageUid w) m); [apply IH|].
  destruct (body m (markAt w (uid m))) as [[e|e] w1]; [apply IH | done].
Qed.

Lemma missing_part_throws ext params conn m w :
  format params <> simple -> requiredPart (format params) m = None ->
  loopBodyFor ext params conn m w = (Err parseError, w).
Proof.
  unfold loopBodyFor, requiredPart, rawBody, resolvedBody.
  destruct (format params); intros Hf Hr; [by rewrite Hr | by rewrite Hr | done].
Qed.

(** C8, as stated, fails for the simple format: a message with a HEADER
    section and no TEXT section is formatted, and the cycle completes with
    one event. *)
Lemma simple_without_text_part_counterexample :
  let r := getNewEmails (refExternals plainParser) (paramsFor simple nothing)
             (storeWith [headerOnly]) unseen (freshWorld None) in
  findPart (parts headerOnly) "TEXT" = None /\
  length (eventsOf r) = 1%nat /\
  (exists evs, fst r = Ok evs).
Proof. vm_compute. split; [done|]. split; [done|]. eexists. reflexivity. Qed.

(** C8, amended. In the raw and the resolved format, when the loop of a
    cycle reaches a message that the filter does not skip and that lacks
    the section the format looks for (TEXT for raw, the empty section name
    for resolved), the cycle fails with the error 'Email part could not be
    parsed.'. *)
Theorem missing_part_fails_cycle ext params conn crit w pre m post evs w1 :
  format params <> simple ->
  search conn crit (fetchOptionsFor (format params)) = Resolved (pre ++ m :: post) ->
  forEachMessage (loopBodyFor ext params conn) pre []
    (logged w (ImapSearch crit (fetchOptionsFor (format params)))) = (Ok evs, w1) ->
  skipped (lastMessageUid w1) m = false ->
  requiredPart (format params) m = None ->
  exists w', getNewEmails ext params conn crit w = (Err parseError, w').
Proof.
  intros Hf Hsearch Hpre Hskip Hpart.
  rewrite getNewEmails_unfold. cbv zeta. rewrite Hsearch.
  rewrite forEachMessage_app, Hpre, forEachMessage_cons, Hskip.
  rewrite (missing_part_throws _ _ _ _ _ Hf Hpart). by eexists.
Qed.

Lemma missing_part_fails_cycle_witness :
  exists w', getNewEmails (refExternals plainParser) (paramsFor raw read) (storeWith batchBroken)
               unseen (freshWorld (Some 3%N)) = (Err parseError, w').
Proof.
  apply (missing_part_fails_cycle (refExternals plainParser) (paramsFor raw read)
           (storeWith batchBroken) unseen (freshWorld (Some 3%N))
           [mail 5 [textPart "five"]] (mail 7 []) []
           (eventsOf (forEachMessage (loopBodyFor (refExternals plainParser) (paramsFor raw read)
                                        (storeWith batchBroken))
                        [mail 5 [textPart "five"]] []
                        (logged (freshWorld (Some 3%N)) (ImapSearch unseen (fetchOptionsFor raw)))))
           (snd (forEachMessage (loopBodyFor (refExternals plainParser) (paramsFor raw read)
                                   (storeWith batchBroken))
                   [mail 5 [textPart "five"]] []
                   (logged (freshWorld (Some 3%N)) (ImapSearch unseen (fetchOptionsFor raw)))))).
  - done.
  - reflexivity.
  - vm_compute. reflexivity.
  - vm_compute. reflexivity.
  - reflexivity.
Defined.

(** ** Messages without structure information *)

Lemma filter_head_of_find {A} (f : A -> bool) (l : list A) x :
  List.find f l = Some x -> exists rest, List.filter f l = x :: rest.
Proof.
  induction l as [|a l IH]; simpl; [done|].
  destruct (f a); [intros [= ->]; by eexists | exact IH].
Qed.

Lemma copyHeaders_top_other messageBody keys k :
  k ∉ topLevelProperties ->
  forall top metadata, (copyHeaders messageBody keys top metadata).1 !! k = top !! k.
Proof.
  intros Hk. induction keys as [|propertyName keys IH]; intros top metadata; simpl; [done|].
  destruct (headerValues messageBody propertyName) as [|first others]; [apply IH|].
  case_bool_decide as Hin; rewrite IH; [|done].
  apply lookup_insert_ne. intros ->. by apply Hk.
Qed.

Lemma textHtml_not_top_level : "textHtml" ∉ topLevelProperties.
Proof. unfold topLevelProperties. rewrite !not_elem_of_cons. repeat split; try done. apply not_elem_of_nil. Qed.

Lemma textPlain_not_top_level : "textPlain" ∉ topLevelProperties.
Proof. unfold topLevelProperties. rewrite !not_elem_of_cons. repeat split; try done. apply not_elem_of_nil. Qed.

Lemma getText_absent_struct conn ps message sub w :
  struct message = None -> getText conn ps message sub w = (Ok "", w).
Proof. intros Hs. unfold getText. by rewrite Hs. Qed.

Lemma getAttachment_absent_struct ext conn ps message w :
  struct message = None -> getAttachment ext conn ps message w = (Ok [], w).
Proof. intros Hs. unfold getAttachment. by rewrite Hs. Qed.

(** C9. For a message whose structure information is absent, [getText]
    returns the empty string and [getAttachment] the empty list, without a
    request and without failing, whatever parts they are given. The cycle
    of the simple format, the one that extracts, does not get that far: it
    hands the absent structure to [getParts] first (line 431), and when
    that call fails, as it does in the library, the cycle fails with its
    error at the first such message it reaches and does not skip. Nothing
    is emitted, no message is flagged, and the mark stands at that
    message. *)
Theorem absent_struct_fails_simple_cycle ext params conn crit w pre m post evs w1 reason :
  format params = simple ->
  search conn crit (fetchOptionsFor simple) = Resolved (pre ++ m :: post) ->
  forEachMessage (loopBodyFor ext params conn) pre []
    (logged w (ImapSearch crit (fetchOptionsFor simple))) = (Ok evs, w1) ->
  skipped (lastMessageUid w1) m = false ->
  struct m = None ->
  getParts ext None = Rejected reason ->
  (forall ps sub w0, getText conn ps m sub w0 = (Ok "", w0)) /\
  (forall ps w0, getAttachment ext conn ps m w0 = (Ok [], w0)) /\
  getNewEmails ext params conn crit w = (Err (ExternalError reason), markAt w1 (uid m)).
Proof.
  intros Hf Hsearch Hpre Hskip Hs Hparts. split; [|split].
  - intros. by apply getText_absent_struct.
  - intros. by apply getAttachment_absent_struct.
  - rewrite getNewEmails_unfold. cbv zeta. rewrite Hf, Hsearch.
    rewrite forEachMessage_app, Hpre, forEachMessage_cons, Hskip.
    unfold loopBodyFor at 1. rewrite Hf.
    unfold simpleBody, bind. by rewrite Hs, Hparts.
Qed.

Lemma absent_struct_fails_simple_cycle_witness :
  let ext := refExternals plainParser in
  let params := paramsFor simple read in
  let conn := storeWith batchUnstructured in
  let w1 := snd (forEachMessage (loopBodyFor ext params conn)
                   [mail 3 [headerPart [("subject", ["first"])]]] []
                   (logged (freshWorld None) (ImapSearch unseen (fetchOptionsFor simple)))) in
  (forall ps sub w0, getText conn ps unstructured sub w0 = (Ok "", w0)) /\
  (forall ps w0, getAttachment ext conn ps unstructured w0 = (Ok [], w0)) /\
  getNewEmails ext params conn unseen (freshWorld None) =
    (Err (ExternalError "Cannot read properties of undefined (reading 'length')"),
     markAt w1 5).
Proof.
  apply (absent_struct_fails_simple_cycle (refExternals plainParser) (paramsFor simple read)
           (storeWith batchUnstructured) unseen (freshWorld None)
           [mail 3 [headerPart [("subject", ["first"])]]] unstructured []
           (eventsOf (forEachMessage (loopBodyFor (refExternals plainParser)
                                        (paramsFor simple read) (storeWith batchUnstructured))
                        [mail 3 [headerPart [("subject", ["first"])]]] []
                        (logged (freshWorld None) (ImapSearch unseen (fetchOptionsFor simple)))))
           (snd (forEachMessage (loopBodyFor (refExternals plainParser)
                                   (paramsFor simple read) (storeWith batchUnstructured))
                   [mail 3 [headerPart [("subject", ["first"])]]] []
                   (logged (freshWorld None) (ImapSearch unseen (fetchOptionsFor simple)))))
           "Cannot read properties of undefined (reading 'length')").
  - reflexivity.
  - reflexivity.
  - vm_compute. reflexivity.
  - vm_compute. reflexivity.
  - reflexivity.
  - reflexivity.
Defined.

(** ** Attachments and the binary property *)

Lemma propertyKey_inj prefix i j : propertyKey prefix i = propertyKey prefix j -> i = j.
Proof.
  unfold propertyKey. intros H. apply String.app_inj in H. by apply pretty_nat_inj in H.
Qed.

Lemma keyAttachments_other prefix atts : forall i acc k,
  (forall j, k <> propertyKey prefix (i + j)) ->
  keyAttachments prefix i atts acc !! k = acc !! k.
Proof.
  induction atts as [|a atts IH]; intros i acc k Hk; simpl; [done|].
  rewrite IH.
  - apply lookup_insert_ne. intros Heq. apply (Hk 0). by rewrite Nat.add_0_r.
  - intros j. rewrite Nat.add_succ_l, <- Nat.add_succ_r. apply Hk.
Qed.

Lemma keyAttachments_key prefix atts : forall i acc j,
  j < length atts ->
  keyAttachments prefix i atts acc !! propertyKey prefix (i + j) = atts !! j.
Proof.
  induction atts as [|a atts IH]; intros i acc j Hj; simpl in *; [lia|].
  destruct j as [|j].
  - rewrite keyAttachments_other.
    + rewrite Nat.add_0_r. apply lookup_insert_eq.
    + intros j Heq. apply propertyKey_inj in Heq. lia.
  - rewrite <- Nat.add_succ_comm. apply IH. lia.
Qed.

(** The object [keyAttachments] builds from nothing holds attachment [i]
    under key [i], and no other key. *)
Lemma keyAttachments_lookup prefix atts i :
  keyAttachments prefix 0 atts ∅ !! propertyKey prefix i = atts !! i.
Proof.
  destruct (decide (i < length atts)) as [Hlt|Hge].
  - apply (keyAttachments_key prefix atts 0 ∅ i Hlt).
  - rewrite (lookup_ge_None_2 atts i) by lia.
    assert (Hgen : forall l n acc, acc !! propertyKey prefix i = None ->
              ~ (n <= i < n + length l) ->
              keyAttachments prefix n l acc !! propertyKey prefix i = None).
    { clear. induction l as [|a l IH]; intros n acc Hacc Hr; simpl; [done|].
      apply IH.
      - rewrite lookup_insert_ne; [done|]. intros Heq. apply propertyKey_inj in Heq.
        simpl in Hr. lia.
      - simpl in Hr. lia. }
    apply Hgen; [apply lookup_empty | lia].
Qed.

Lemma keyAttachments_keys prefix atts : forall i acc k,
  is_Some (keyAttachments prefix i atts acc !! k) ->
  is_Some (acc !! k) \/ exists j, k = propertyKey prefix j.
Proof.
  induction atts as [|a atts IH]; intros i acc k Hk; simpl in *; [by left|].
  destruct (IH _ _ _ Hk) as [Hacc|Hj]; [|by right].
  destruct (decide (propertyKey prefix i = k)) as [<-|Hne]; [right; by eexists|].
  left. by rewrite lookup_insert_ne in Hacc.
Qed.

Lemma keyAttachments_binaryKeyed prefix a atts :
  binaryKeyed prefix (a :: atts) (Some (keyAttachments prefix 0 (a :: atts) ∅)).
Proof.
  split; [done|]. split.
  - intros i. apply keyAttachments_lookup.
  - intros k Hk. apply keyAttachments_keys in Hk as [Hempty|Hj]; [|done].
    rewrite lookup_empty in Hempty. by destruct Hempty.
Qed.

(** The loop of [parseRawEmail] builds the same object from the prepared
    attachments, and changes nothing in the world. *)
Lemma storeAttachments_ok ext prefix atts : forall i acc w b w',
  storeAttachments ext prefix i atts acc w = (Ok b, w') ->
  exists bins, Forall2 (preparedFrom ext) atts bins /\
               b = keyAttachments prefix i bins acc /\ w' = w.
Proof.
  induction atts as [|a atts IH]; intros i acc w b w' H; simpl in H.
  - inversion H; subst. exists []. by repeat split.
  - unfold bind in H.
    destruct (prepareBinaryData ext _ _ _) as [bin|reason] eqn:E; simpl in H; [|done].
    destruct (IH _ _ _ _ _ H) as (bins & Hp & -> & ->).
    exists (bin :: bins). split; [by constructor | done].
Qed.

(** C10. An event built by [parseRawEmail] (resolved format) or by the
    simple format with attachment download has a [binary] property exactly
    when at least one attachment was extracted from the message; the
    property then holds attachment number [i], counted from zero, under the
    key made of the prefix followed by [i], and no other key. *)
Theorem binary_present_iff_attachment_extracted ext conn :
  (forall b prefix w ev w',
     parseRawEmail ext b prefix w = (Ok ev, w') ->
     exists mailData bins,
       simpleParser ext b = Resolved mailData /\
       Forall2 (preparedFrom ext) (default [] (attachments mailData)) bins /\
       binaryKeyed prefix bins (binary ev)) /\
  (forall prefix m w ev w',
     simpleBody ext conn true prefix m w = (Ok ev, w') ->
     exists ps w1 w2 bins,
       getParts ext (struct m) = Resolved ps /\
       getAttachment ext conn ps m w1 = (Ok bins, w2) /\
       binaryKeyed prefix bins (binary ev)).
Proof.
  split.
  - intros b prefix w ev w' H. unfold parseRawEmail, bind in H.
    destruct (simpleParser ext b) as [mailData|reason] eqn:Hparse; simpl in H; [|done].
    exists mailData.
    destruct (attachments mailData) as [atts|]; simpl in *.
    + destruct (storeAttachments ext prefix 0 atts ∅ w) as [[stored|e] w1] eqn:Hstore; [|done].
      destruct (storeAttachments_ok _ _ _ _ _ _ _ _ Hstore) as (bins & Hp & -> & ->).
      inversion H; subst; clear H. simpl.
      exists bins. split; [done|]. split; [done|].
      destruct bins as [|a bins]; [done|].
      pose proof (keyAttachments_lookup prefix (a :: bins) 0) as Hfirst. simpl in Hfirst.
      destruct (size (keyAttachments prefix 0 (a :: bins) ∅) =? 0)%nat eqn:Hsize.
      * apply Nat.eqb_eq, map_size_empty_iff in Hsize. simpl in Hsize.
        rewrite Hsize, lookup_empty in Hfirst. done.
      * apply keyAttachments_binaryKeyed.
    + inversion H; subst; clear H. by exists [].
  - intros prefix m w ev w' H. unfold simpleBody, bind in H.
    destruct (getParts ext (struct m)) as [ps|reason] eqn:Hparts; simpl in H; [|done].
    destruct (getText conn ps m "html" w) as [[html|e] wa]; [|done].
    destruct (getText conn ps m "plain" wa) as [[plain|e] wb]; [|done].
    destruct (List.filter _ (parts m)) as [|header rest]; [done|].
    destruct (copyHeaders _ _ _ _) as [top metadata].
    destruct (getAttachment ext conn ps m wb) as [[bins|e] wc] eqn:Hatt; [|done].
    exists ps, wb, wc, bins. split; [done|]. split; [done|].
    destruct bins as [|a bins]; inversion H; subst; clear H; simpl; [done|].
    apply keyAttachments_binaryKeyed.
Qed.

Lemma binary_present_iff_attachment_extracted_witness :
  let ext := refExternals attachmentParser in
  let conn := storeWith [withAttachment] in
  (exists mailData bins,
     simpleParser ext (BodyText "mime") = Resolved mailData /\
     Forall2 (preparedFrom ext) (default [] (attachments mailData)) bins /\
     binaryKeyed "attachment_" bins
       (binary (eventOf (parseRawEmail ext (BodyText "mime") "attachment_" (freshWorld None))))) /\
  (exists ps w1 w2 bins,
     getParts ext (struct withAttachment) = Resolved ps /\
     getAttachment ext conn ps withAttachment w1 = (Ok bins, w2) /\
     binaryKeyed "file_" bins
       (binary (eventOf (simpleBody ext conn true "file_" withAttachment (freshWorld None))))).
Proof.
  destruct (binary_present_iff_attachment_extracted (refExternals attachmentParser)
              (storeWith [withAttachment])) as [Hresolved Hsimple].
  split.
  - apply (Hresolved (BodyText "mime") "attachment_" (freshWorld None) _
             (snd (parseRawEmail (refExternals attachmentParser) (BodyText "mime")
                     "attachment_" (freshWorld None)))).
    vm_compute. reflexivity.
  - apply (Hsimple "file_" withAttachment (freshWorld None) _
             (snd (simpleBody (refExternals attachmentParser) (storeWith [withAttachment])
                     true "file_" withAttachment (freshWorld None)))).
    vm_compute. reflexivity.
Defined.

(** Whatever its outcome, a cycle starts by sending its criteria to the
    store. *)
Lemma cycle_trace_starts_with_search ext params conn crit w r w' :
  getNewEmails ext params conn crit w = (r, w') ->
  exists t, trace w' = trace w ++ ImapSearch crit (fetchOptionsFor (format params)) :: t.
Proof.
  rewrite getNewEmails_unfold. cbv zeta.
  destruct (search conn crit _) as [results|reason].
  - destruct (forEachMessage _ results [] _) as [[evs|e] w1] eqn:Hloop;
      destruct (forEachMessage_frame _ (quiet_loopBodyFor ext params conn) _ _ _ _ _ Hloop)
        as [_ (t & T & _)]; simpl in T.
    + destruct (closingFlags params results) as [|request others].
      * intros [= <- <-]. exists t. by rewrite T, <- app_assoc.
      * destruct (addFlags conn _ _); intros [= <- <-]; exists (t ++ [request]); simpl;
          by rewrite T, <- !app_assoc.
    + intros [= <- <-]. exists t. by rewrite T, <- app_assoc.
  - intros [= <- <-]. by exists [].
Qed.

(** ** The watcher *)

(** C7. When the custom criteria text is not valid JSON, [trigger] fails
    with 'Custom email config is not valid JSON.' and the watcher is as it
    was: no call has been made on any collaborator, so [imapConnect] was
    never called; the same holds for every later [establishConnection]. *)
Theorem invalid_custom_config_fails_before_connect ext params text :
  customEmailConfig params = Some text ->
  JSON_parse ext text = None ->
  forall connectOutcome openBoxOutcome w,
    trigger ext params connectOutcome openBoxOutcome w = (Err configError, w) /\
    establishConnection ext params connectOutcome w = (Err configError, w) /\
    trace (world (snd (trigger ext params connectOutcome openBoxOutcome w))) = trace (world w).
Proof.
  intros Hcfg Hparse connectOutcome openBoxOutcome w.
  assert (He : establishConnection ext params connectOutcome w = (Err configError, w)).
  { unfold establishConnection, baseCriteria. by rewrite Hcfg, Hparse. }
  unfold trigger, trigger_connect. rewrite He. done.
Qed.

Lemma invalid_custom_config_fails_before_connect_witness :
  let ext := refExternals plainParser in
  let params := paramsWithConfig "not valid json" in
  let w := initialWatcher None in
  trigger ext params (Resolved tt) (Resolved tt) w = (Err configError, w) /\
  establishConnection ext params (Resolved tt) w = (Err configError, w) /\
  trace (world (snd (trigger ext params (Resolved tt) (Resolved tt) w))) = trace (world w).
Proof.
  apply (invalid_custom_config_fails_before_connect (refExternals plainParser)
           (paramsWithConfig "not valid json") "not valid json").
  - reflexivity.
  - vm_compute. reflexivity.
Defined.

(** The first notification handled with a mark adds one UID criterion to
    the array of its connection, and the array keeps it. *)
Lemma onMail_pushes_uid_criterion ext params k current w arr c lastUid :
  connection w = Some c ->
  closures w !! k = Some arr ->
  lastMessageUid (world w) = Some lastUid ->
  closures (onMail ext params k current w) !! k = Some (arr ++ [uidCriterion lastUid]) /\
  exists t, trace (world (onMail ext params k current w)) =
            trace (world w) ++
            ImapSearch (arr ++ [uidCriterion lastUid]) (fetchOptionsFor (format params)) :: t.
Proof.
  intros Hc Hk Hl. unfold onMail. rewrite Hc, Hk, Hl.
  unfold pushCriterion. rewrite Hk. simpl.
  assert (Hlook : <[k := arr ++ [uidCriterion lastUid]]> (closures w) !! k
                  = Some (arr ++ [uidCriterion lastUid])).
  { apply list_lookup_insert_eq. by eapply lookup_lt_Some. }
  rewrite Hlook. simpl.
  destruct (getNewEmails ext params current _ (world w)) as [[evs|e] wd] eqn:Hcycle.
  - assert (Ht : exists t, trace wd = trace (world w) ++
                   ImapSearch (arr ++ [uidCriterion lastUid]) (fetchOptionsFor (format params)) :: t).
    { destruct (cycle_trace_starts_with_search _ _ _ _ _ _ _ Hcycle) as [t Ht]. by exists t. }
    destruct Ht as [t Ht].
    destruct (0 <? length evs)%nat; simpl; (split; [done|]).
    + exists (t ++ [Emit evs]). rewrite Ht. by rewrite <- app_assoc.
    + by exists t.
  - assert (Ht : exists t, trace wd = trace (world w) ++
                   ImapSearch (arr ++ [uidCriterion lastUid]) (fetchOptionsFor (format params)) :: t).
    { destruct (cycle_trace_starts_with_search _ _ _ _ _ _ _ Hcycle) as [t Ht]. by exists t. }
    destruct Ht as [t Ht].
    unfold emitErrorWhenResolved. destruct (returnedPromiseResolved w) eqn:Hr; simpl; rewrite ?Hr; simpl;
      (split; [done|]).
    + eexists. rewrite Ht. rewrite <- !app_assoc. simpl. reflexivity.
    + eexists. rewrite Ht. rewrite <- !app_assoc. simpl. reflexivity.
Qed.

Lemma emittedErrors_app t1 t2 : emittedErrors (t1 ++ t2) = emittedErrors t1 ++ emittedErrors t2.
Proof. unfold emittedErrors. apply flat_map_app. Qed.

(** A fetch cycle never calls [emitError] itself. *)
Lemma cycle_emits_no_error ext params conn crit w r w' :
  getNewEmails ext params conn crit w = (r, w') ->
  emittedErrors (trace w') = emittedErrors (trace w).
Proof.
  rewrite getNewEmails_unfold. cbv zeta.
  destruct (search conn crit _) as [results|reason].
  - destruct (forEachMessage _ results [] _) as [[evs|e] w1] eqn:Hloop;
      destruct (forEachMessage_frame _ (quiet_loopBodyFor ext params conn) _ _ _ _ _ Hloop)
        as [_ (t & T & F)]; simpl in T; apply partRequests_no_errors in F.
    + unfold closingFlags. destruct (postProcessAction params), results as [|m rest];
        try (intros [= <- <-]; rewrite T, !emittedErrors_app, F; simpl; by rewrite !app_nil_r).
      destruct (addFlags conn _ _); intros [= <- <-]; simpl;
        rewrite T, !emittedErrors_app, F; simpl; by rewrite !app_nil_r.
    + intros [= <- <-]. rewrite T, !emittedErrors_app, F. simpl. by rewrite !app_nil_r.
  - intros [= <- <-]. simpl. rewrite emittedErrors_app. simpl. by rewrite app_nil_r.
Qed.

(** The [onMail] path holds its errors back: while [returnedPromise] is
    unresolved, handling a notification gives nothing to [emitError]. *)
Lemma onMail_waits_for_ready ext params k current w :
  returnedPromiseResolved w = false ->
  returnedPromiseResolved (onMail ext params k current w) = false /\
  emittedErrors (trace (world (onMail ext params k current w))) =
  emittedErrors (trace (world w)).
Proof.
  intros Hr. unfold onMail.
  destruct (connection w); [|done].
  destruct (closures w !! k) as [arr|] eqn:Hk; [|done].
  set (w1 := match lastMessageUid (world w) with
             | Some lastUid => pushCriterion k (uidCriterion lastUid) w
             | None => w
             end).
  assert (Hw1 : world w1 = world w /\ returnedPromiseResolved w1 = false).
  { unfold w1, pushCriterion. destruct (lastMessageUid (world w)); [|done].
    by rewrite Hk. }
  destruct Hw1 as [Hworld Hr1].
  destruct (getNewEmails ext params current _ (world w1)) as [[evs|e] wd] eqn:Hcycle;
    apply cycle_emits_no_error in Hcycle; rewrite Hworld in Hcycle.
  - destruct (0 <? length evs)%nat; simpl; [|done].
    split; [done|]. rewrite emittedErrors_app, Hcycle. simpl. by rewrite app_nil_r.
  - unfold emitErrorWhenResolved. simpl. rewrite Hr1. simpl.
    split; [done|]. rewrite emittedErrors_app, Hcycle. simpl. by rewrite app_nil_r.
Qed.

(** C5, evaluated. A ready watcher with the default criteria and the mark
    at 5 handles two notifications on its connection; the first finds
    message 9. The first search is sent the base criteria and one UID
    criterion, the second the base criteria and two: the one pushed by the
    first notification is still in the array. *)
Lemma second_notification_sends_two_uid_criteria :
  let ext := refExternals plainParser in
  let params := paramsFor raw nothing in
  let w := run ext params (readyWatcher params (Some 5%N))
             [NewMail 0 (storeWith [mail 9 [textPart "nine"]]); NewMail 0 (storeWith [])] in
  searchesOf (trace (world w)) =
    [ [Crit "UNSEEN"; CritList [Crit "UID"; Crit "5:*"]];
      [Crit "UNSEEN"; CritList [Crit "UID"; Crit "5:*"]; CritList [Crit "UID"; Crit "9:*"]] ] /\
  closures w !! 0%nat =
    Some [Crit "UNSEEN"; CritList [Crit "UID"; Crit "5:*"]; CritList [Crit "UID"; Crit "9:*"]].
Proof. vm_compute. done. Qed.

(** C6, evaluated. A watcher has connected and awaits the answer of
    [openBox]; its connection raises an error that is neither ECONNRESET
    nor EPIPE. The error is given to [emitError] at once, while
    [returnedPromise] is unresolved; the promise is resolved only when
    [openBox] answers. A fetch error in the same state is held back until
    then. *)
Lemma connection_error_emitted_before_ready :
  let ext := refExternals plainParser in
  let params := paramsFor raw read in
  let w1 := step ext params (connectedWatcher params None)
              (ConnectionError "ETIMEDOUT" (Resolved tt) (Resolved tt)) in
  let w2 := step ext params w1 (OpenBoxAnswered (Resolved tt)) in
  let v1 := step ext params (connectedWatcher params None) (NewMail 0 (storeWith batchBroken)) in
  let v2 := step ext params v1 (OpenBoxAnswered (Resolved tt)) in
  returnedPromiseResolved w1 = false /\
  emittedErrors (trace (world w1)) = [ExternalError "ETIMEDOUT"] /\
  trace (world w2) =
    [ ImapConnect; ImapOpenBox "INBOX";
      LoggerError "Email Read Imap node encountered a connection error";
      EmitError (ExternalError "ETIMEDOUT"); ReturnedPromiseResolve ] /\
  returnedPromiseResolved v1 = false /\
  emittedErrors (trace (world v1)) = [] /\
  waiting v1 = [parseError] /\
  emittedErrors (trace (world v2)) = [parseError].
Proof. vm_compute. done. Qed.

(** ** The scenarios of the specification, run on the model *)

(** Messages 5, 7 and 9, no persisted mark: one batch of three events, and
    the mark is 9. *)
Example scenario_fresh_watcher :
  let r := getNewEmails (refExternals plainParser) (paramsFor raw nothing) (storeWith batch579)
             unseen (freshWorld None) in
  length (eventsOf r) = 3%nat /\ lastMessageUid (snd r) = Some 9%N.
Proof. vm_compute. done. Qed.

(** The same mailbox after a restart with the mark at 7: only message 9. *)
Example scenario_restart_at_7 :
  let r := getNewEmails (refExternals plainParser) (paramsFor raw nothing) (storeWith batch579)
             unseen (freshWorld (Some 7%N)) in
  (json <$> eventsOf r) = [ {[ "raw" := JBody (BodyText "nine") ]} ] /\
  lastMessageUid (snd r) = Some 9%N.
Proof. vm_compute. done. Qed.

(** The resolved format stores the two attachments of a parsed mail under
    [attachment_0] and [attachment_1]. *)
Example scenario_resolved_attachments :
  let r := getNewEmails (refExternals attachmentParser) (paramsFor resolved nothing)
             (storeWith [mail 4 [fullPart "mime"]]) unseen (freshWorld None) in
  (fmap (fun b => (data <$> b !! "attachment_0", data <$> b !! "attachment_1",
                   data <$> b !! "attachment_2")) <$> (binary <$> eventsOf r))
  = [Some (Some "AAAA", Some "BBBB", None)].
Proof. vm_compute. done. Qed.

(** The reference reader on the default criteria text, on a nested
    criterion, and on texts that are not JSON arrays of strings. *)
Example scenario_criteria_texts :
  JSON_parse_ref ("[" +:+ quoted "UNSEEN" +:+ "]") = Some [Crit "UNSEEN"] /\
  JSON_parse_ref ("[" +:+ quoted "UNSEEN" +:+ ", [" +:+ quoted "SINCE" +:+ "," +:+
                  quoted "May 20, 2010" +:+ "]]")
    = Some [Crit "UNSEEN"; CritList [Crit "SINCE"; Crit "May 20, 2010"]] /\
  JSON_parse_ref "not valid json" = None /\
  JSON_parse_ref ("[" +:+ quoted "UNSEEN" +:+ ",]") = None.
Proof. vm_compute. done. Qed.

(** A transient connection error is answered by a reconnect, and nothing
    reaches [emitError]. *)
Example scenario_transient_error :
  let params := paramsFor raw read in
  let w := step (refExternals plainParser) params (readyWatcher params None)
             (ConnectionError "econnreset" (Resolved tt) (Resolved tt)) in
  trace (world w) =
    [ImapConnect; ImapOpenBox "INBOX"; ReturnedPromiseResolve; ImapConnect; ImapOpenBox "INBOX"] /\
  connection w = Some 1%nat.
Proof. vm_compute. done. Qed.

(** * Further properties of the node *)

(** ** Which messages a cycle emits *)











(** ** The calls of a cycle *)

Lemma cycle_shape ext params conn crit w r w' :
  getNewEmails ext params conn crit w = (r, w') ->
  exists t tail,
    trace w' = trace w ++ ImapSearch crit (fetchOptionsFor (format params)) :: t ++ tail /\
    Forall partRequest t /\
    match search conn crit (fetchOptionsFor (format params)) with
    | Rejected reason =>
        r = Err (ExternalError reason) /\ t = [] /\ tail = [] /\
        lastMessageUid w' = lastMessageUid w
    | Resolved results =>
        (tail = [] \/ tail = closingFlags params results) /\
        (forall evs, r = Ok evs -> tail = closingFlags params results)
    end.
Proof.
  rewrite getNewEmails_unfold. cbv zeta.
  destruct (search conn crit _) as [results|reason].
  - destruct (forEachMessage _ results [] _) as [[evs|e] w1] eqn:Hloop;
      destruct (forEachMessage_frame _ (quiet_loopBodyFor ext params conn) _ _ _ _ _ Hloop)
        as [_ (t & T & F)]; simpl in T.
    + destruct (closingFlags params results) as [|request others] eqn:Hflags.
      * intros [= <- <-]. exists t, []. rewrite app_nil_r, T, <- app_assoc.
        repeat split; auto.
      * assert (Hone : others = []).
        { unfold closingFlags in Hflags.
          destruct (postProcessAction params), results; by inversion Hflags. }
        subst others.
        destruct (addFlags conn _ _); intros [= <- <-]; exists t, [request]; simpl;
          rewrite T, <- !app_assoc; repeat split; auto.
    + intros [= <- <-]. exists t, []. rewrite app_nil_r, T, <- app_assoc.
      repeat split; auto. intros evs Hevs. done.
  - intros [= <- <-]. exists [], []. simpl. repeat split; auto.
Qed.

(** X4. Whatever its outcome, a fetch cycle calls the store in this order:
    one search with the criteria it was given, fetching without marking as
    seen; then requests for part data only; then at most one [addFlags]
    request, which is made only when the action is [read] and the result is
    not empty, and which a completed cycle with such a result always makes.
    It makes no other call, and its mark never ends below the one it
    started from. *)
Theorem cycle_calls_in_order ext params conn crit w r w' :
  getNewEmails ext params conn crit w = (r, w') ->
  markSeen (fetchOptionsFor (format params)) = false /\
  hwm_le (lastMessageUid w) (lastMessageUid w') /\
  exists t tail,
    trace w' = trace w ++ ImapSearch crit (fetchOptionsFor (format params)) :: t ++ tail /\
    Forall partRequest t /\
    (tail = [] \/
     exists results,
       search conn crit (fetchOptionsFor (format params)) = Resolved results /\
       postProcessAction params = read /\ results <> [] /\
       tail = [ImapAddFlags (map uid results) SEEN]) /\
    (forall evs results,
       r = Ok evs ->
       search conn crit (fetchOptionsFor (format params)) = Resolved results ->
       postProcessAction params = read -> results <> [] ->
       tail = [ImapAddFlags (map uid results) SEEN]).
Proof.
  intros H. split; [by destruct (format params)|]. split.
  - change w' with (snd (r, w')). rewrite <- H.
    change (snd (getNewEmails ext params conn crit w)) with (runCycle ext params w (conn, crit)).
    rewrite runCycle_mark. apply hwm_le_hwmMax.
  - destruct (cycle_shape _ _ _ _ _ _ _ H) as (t & tail & T & F & Hcase).
    exists t, tail. split; [done|]. split; [done|].
    destruct (search conn crit _) as [results|reason].
    + destruct Hcase as [Htail Hok]. split.
      * destruct Htail as [-> | ->]; [by left|].
        unfold closingFlags. destruct (postProcessAction params) eqn:Hact; [|by left].
        destruct results as [|m rest] eqn:Hres; [by left|].
        right. exists (m :: rest). by repeat split.
      * intros evs results' -> [= <-] Hact Hne. rewrite (Hok evs eq_refl).
        unfold closingFlags. rewrite Hact. by destruct results.
    + destruct Hcase as (_ & _ & -> & _). split; [by left|]. intros evs results' _ Hbad. done.
Qed.

Lemma cycle_calls_in_order_witness :
  let w := freshWorld (Some 7%N) in
  let w' := snd (getNewEmails (refExternals plainParser) (paramsFor raw read)
                   (storeWith batchBroken) unseen w) in
  markSeen (fetchOptionsFor raw) = false /\
  hwm_le (lastMessageUid w) (lastMessageUid w') /\
  exists t tail,
    trace w' = trace w ++ ImapSearch unseen (fetchOptionsFor raw) :: t ++ tail /\
    Forall partRequest t /\
    (tail = [] \/
     exists results,
       search (storeWith batchBroken) unseen (fetchOptionsFor raw) = Resolved results /\
       read = read /\ results <> [] /\
       tail = [ImapAddFlags (map uid results) SEEN]) /\
    (forall evs results,
       fst (getNewEmails (refExternals plainParser) (paramsFor raw read)
              (storeWith batchBroken) unseen w) = Ok evs ->
       search (storeWith batchBroken) unseen (fetchOptionsFor raw) = Resolved results ->
       read = read -> results <> [] ->
       tail = [ImapAddFlags (map uid results) SEEN]).
Proof.
  apply (cycle_calls_in_order (refExternals plainParser) (paramsFor raw read)
           (storeWith batchBroken) unseen (freshWorld (Some 7%N))).
  apply surjective_pairing.
Defined.

(** ** Formats that fetch no part *)

Lemma silent_ret {A} (a : A) : silent (ret a).
Proof. intros w r w' H. by inversion H. Qed.

Lemma silent_throw {A} e : silent (@throw A e).
Proof. intros w r w' H. by inversion H. Qed.

Lemma silent_await {A} (o : Outcome A) : silent (await o).
Proof. destruct o; [apply silent_ret | apply silent_throw]. Qed.

Lemma silent_bind {A B} (m : Async A) (k : A -> Async B) :
  silent m -> (forall a, silent (k a)) -> silent (bind m k).
Proof.
  intros Hm Hk w r w' H. unfold bind in H.
  destruct (m w) as [[a|e] w1] eqn:E; pose proof (Hm _ _ _ E) as ->.
  - exact (Hk a _ _ _ H).
  - by inversion H.
Qed.

Lemma silent_storeAttachments ext prefix atts : forall i acc,
  silent (storeAttachments ext prefix i atts acc).
Proof.
  induction atts as [|a atts IH]; intros i acc; simpl; [apply silent_ret|].
  apply silent_bind; [apply silent_await | intros; apply IH].
Qed.

Lemma silent_parseRawEmail ext b prefix : silent (parseRawEmail ext b prefix).
Proof.
  unfold parseRawEmail. apply silent_bind; [apply silent_await|]. intros mailData.
  apply silent_bind; [|intros; apply silent_ret].
  destruct (attachments mailData); [apply silent_storeAttachments | apply silent_ret].
Qed.

Lemma silent_rawBody m : silent (rawBody m).
Proof. unfold rawBody. destruct (findPart _ _); [apply silent_ret | apply silent_throw]. Qed.

Lemma silent_resolvedBody ext prefix m : silent (resolvedBody ext prefix m).
Proof.
  unfold resolvedBody. destruct (findPart _ _); [apply silent_parseRawEmail | apply silent_throw].
Qed.

Lemma forEachMessage_silent body :
  (forall m, silent (body m)) ->
  forall results acc w r w', forEachMessage body results acc w = (r, w') -> trace w' = trace w.
Proof.
  intros Hs. induction results as [|m rest IH]; intros acc w r w' H.
  - by inversion H.
  - rewrite forEachMessage_cons in H.
    destruct (skipped (lastMessageUid w) m); [by eapply IH|].
    destruct (body m (markAt w (uid m))) as [[e|e] w1] eqn:E; pose proof (Hs _ _ _ _ E) as ->.
    + by rewrite (IH _ _ _ _ H).
    + by inversion H.
Qed.

(** X5. In the raw and the resolved format a fetch cycle asks the store
    for no part data: its calls are the search and, at most, the closing
    [addFlags] request. *)
Theorem raw_and_resolved_fetch_no_part ext params conn crit w r w' :
  format params <> simple ->
  getNewEmails ext params conn crit w = (r, w') ->
  trace w' = trace w ++ [ImapSearch crit (fetchOptionsFor (format params))] \/
  exists results,
    search conn crit (fetchOptionsFor (format params)) = Resolved results /\
    trace w' = trace w ++ [ImapSearch crit (fetchOptionsFor (format params));
                           ImapAddFlags (map uid results) SEEN].
Proof.
  intros Hf. rewrite getNewEmails_unfold. cbv zeta.
  destruct (search conn crit _) as [results|reason]; [|intros [= <- <-]; by left].
  assert (Hsilent : forall m, silent (loopBodyFor ext params conn m)).
  { intros m. unfold loopBodyFor. destruct (format params);
      [apply silent_rawBody | apply silent_resolvedBody | done]. }
  destruct (forEachMessage _ results [] _) as [[evs|e] w1] eqn:Hloop;
    pose proof (forEachMessage_silent _ Hsilent _ _ _ _ _ Hloop) as T; simpl in T.
  - unfold closingFlags. destruct (postProcessAction params), results as [|m rest];
      try (intros [= <- <-]; by left).
    destruct (addFlags conn _ _); intros [= <- <-]; right; exists (m :: rest);
      (split; [done|]); simpl; rewrite T; by rewrite <- app_assoc.
  - intros [= <- <-]. by left.
Qed.

Lemma raw_and_resolved_fetch_no_part_witness :
  let w := freshWorld None in
  let w' := snd (getNewEmails (refExternals attachmentParser) (paramsFor resolved read)
                   (storeWith [mail 4 [fullPart "mime"]]) unseen w) in
  trace w' = trace w ++ [ImapSearch unseen (fetchOptionsFor resolved)] \/
  exists results,
    search (storeWith [mail 4 [fullPart "mime"]]) unseen (fetchOptionsFor resolved)
      = Resolved results /\
    trace w' = trace w ++ [ImapSearch unseen (fetchOptionsFor resolved);
                           ImapAddFlags (map uid results) SEEN].
Proof.
  apply (raw_and_resolved_fetch_no_part (refExternals attachmentParser)
           (paramsFor resolved read) (storeWith [mail 4 [fullPart "mime"]]) unseen
           (freshWorld None)
           (fst (getNewEmails (refExternals attachmentParser) (paramsFor resolved read)
                   (storeWith [mail 4 [fullPart "mime"]]) unseen (freshWorld None)))).
  - done.
  - apply surjective_pairing.
Defined.

(** ** Text and attachment extraction *)

Lemma upper_ascii_idem c : upper_ascii (upper_ascii c) = upper_ascii c.
Proof.
  unfold upper_ascii.
  destruct ((97 <=? Ascii.nat_of_ascii c)%nat && (Ascii.nat_of_ascii c <=? 122)%nat) eqn:H.
  - apply andb_true_iff in H as [H1 H2]. apply Nat.leb_le in H1, H2.
    rewrite Ascii.nat_ascii_embedding by lia.
    assert (Hlow : (97 <=? Ascii.nat_of_ascii c - 32)%nat = false) by (apply Nat.leb_gt; lia).
    by rewrite Hlow.
  - by rewrite H.
Qed.

Lemma toUpperCase_idem s : toUpperCase (toUpperCase s) = toUpperCase s.
Proof. induction s as [|c s IH]; simpl; [done|]. by rewrite upper_ascii_idem, IH. Qed.

(** X6. [getText] never fails and leaves the mark alone. With a structure
    and at least one part of type text and the asked subtype, both compared
    without regard to case, it makes one request, for the first such part,
    and returns its data, or the empty string when the request is rejected;
    otherwise it makes no call and returns the empty string. *)
Theorem getText_never_fails conn ps m sub w :
  getText conn ps m sub = getText conn ps m (toUpperCase sub) /\
  exists text w',
    getText conn ps m sub w = (Ok text, w') /\
    lastMessageUid w' = lastMessageUid w /\
    match struct m, textPartsOf ps sub with
    | Some _, part :: _ =>
        toUpperCase (type part) = "TEXT" /\
        toUpperCase (subtype part) = toUpperCase sub /\
        trace w' = trace w ++ [ImapGetPartData (uid m) (partID part)] /\
        text = match getPartData conn m part with
               | Resolved partData => partData
               | Rejected _ => ""
               end
    | _, _ => w' = w /\ text = ""
    end.
Proof.
  split.
  - unfold getText. by rewrite toUpperCase_idem.
  - unfold getText, textPartsOf. destruct (struct m); [|by exists "", w].
    destruct (List.filter _ ps) as [|part others] eqn:Hfilter; [by exists "", w|].
    assert (Hin : In part (List.filter
              (fun part => String.eqb (toUpperCase (type part)) "TEXT"
                           && String.eqb (toUpperCase (subtype part)) (toUpperCase sub)) ps)).
    { rewrite Hfilter. by left. }
    apply List.filter_In in Hin as [_ Hmatch].
    apply andb_true_iff in Hmatch as [Ht Hsub].
    apply String.eqb_eq in Ht, Hsub.
    unfold try_catch, bind, perform. simpl.
    destruct (getPartData conn m part) as [partData|reason]; simpl;
      eexists _, _; repeat split; eauto.
Qed.

Lemma bind_perform {B} e (k : unit -> Async B) w : bind (perform e) k w = k tt (logged w e).
Proof. reflexivity. Qed.

Lemma bind_ok {A B} (m : Async A) (k : A -> Async B) w a w1 :
  m w = (Ok a, w1) -> bind m k w = k a w1.
Proof. intros H. unfold bind. by rewrite H. Qed.

Lemma forAwait_perform {A} (f : A -> Effect) (xs : list A) : forall w,
  exists units, forAwait (fun x => perform (f x)) xs w =
    (Ok units, {| lastMessageUid := lastMessageUid w; trace := trace w ++ map f xs |}).
Proof.
  induction xs as [|x xs IH]; intros w; simpl.
  - exists []. unfold ret. rewrite app_nil_r. by destruct w.
  - rewrite bind_perform. destruct (IH (logged w (f x))) as [units Hu].
    rewrite (bind_ok _ _ _ _ _ Hu).
    exists (() :: units). unfold ret. simpl. by rewrite <- app_assoc.
Qed.

Lemma forAwait_await_ok {A B} (f : A -> Outcome B) (xs : list A) : forall w ys w',
  forAwait (fun x => await (f x)) xs w = (Ok ys, w') ->
  Forall2 (fun x y => f x = Resolved y) xs ys /\ w' = w.
Proof.
  induction xs as [|x xs IH]; intros w ys w' H; simpl in H.
  - inversion H; subst. split; [constructor|done].
  - unfold bind in H. destruct (f x) as [y|reason] eqn:E; simpl in H; [|done].
    destruct (forAwait _ xs w) as [[ys0|e] w1] eqn:E2; [|done].
    inversion H; subst. destruct (IH _ _ _ E2) as [Hall ->].
    split; [by constructor | done].
Qed.

Lemma forAwait_await_rejected {A B} (f : A -> Outcome B) (xs : list A) x reason :
  x ∈ xs -> f x = Rejected reason ->
  forall w, exists e, forAwait (fun x => await (f x)) xs w = (Err e, w).
Proof.
  intros Hin Hrej. induction xs as [|a xs IH]; intros w; [by apply elem_of_nil in Hin|].
  simpl. unfold bind.
  destruct (f a) as [y|reason'] eqn:E; simpl; [|by eexists].
  apply elem_of_cons in Hin as [->|Hin]; [congruence|].
  destruct (IH Hin w) as [e He]. rewrite He. by eexists.
Qed.

Lemma forAwait_fetched ext conn m parts0 : forall w0,
  forAwait (fun attachmentPart =>
              let! partData := await (getPartData conn m attachmentPart) in
              await (prepareBinaryData ext partData (filename <$> disposition attachmentPart) None))
           parts0 w0 =
  forAwait (fun part => await (fetchedAttachment ext conn m part)) parts0 w0.
Proof.
  induction parts0 as [|part parts0 IH]; intros w0; simpl; [done|].
  unfold bind, fetchedAttachment. destruct (getPartData conn m part); simpl; [|done].
  destruct (prepareBinaryData ext _ _ _); simpl; [|done].
  by rewrite IH.
Qed.

Lemma getAttachment_unfold ext conn ps m w :
  struct m <> None ->
  getAttachment ext conn ps m w =
  forAwait (fun part => await (fetchedAttachment ext conn m part)) (attachmentPartsOf ps)
    {| lastMessageUid := lastMessageUid w;
       trace := trace w ++ map (fun part => ImapGetPartData (uid m) (partID part))
                               (attachmentPartsOf ps) |}.
Proof.
  intros Hs. unfold getAttachment. fold (attachmentPartsOf ps). destruct (struct m); [|done].
  destruct (forAwait_perform (fun part => ImapGetPartData (uid m) (partID part))
              (attachmentPartsOf ps) w) as [units Hu].
  rewrite (bind_ok _ _ _ _ _ Hu). apply forAwait_fetched.
Qed.

(** X7. With a structure, [getAttachment] first requests the data of
    every part whose disposition is attachment (compared without regard to
    case), in order. When it succeeds it returns one binary per such part,
    in order, prepared from that part's data under that part's file name,
    and the mark is untouched. When the request for one of these parts is
    rejected, or its preparation is, it fails. *)
Theorem getAttachment_one_binary_per_part ext conn ps m w :
  struct m <> None ->
  (forall bins w',
     getAttachment ext conn ps m w = (Ok bins, w') ->
     Forall2 (fun part bin => fetchedAttachment ext conn m part = Resolved bin)
             (attachmentPartsOf ps) bins /\
     length bins = length (attachmentPartsOf ps) /\
     trace w' = trace w ++ map (fun part => ImapGetPartData (uid m) (partID part))
                               (attachmentPartsOf ps) /\
     lastMessageUid w' = lastMessageUid w) /\
  (forall part reason,
     part ∈ attachmentPartsOf ps ->
     fetchedAttachment ext conn m part = Rejected reason ->
     exists e w', getAttachment ext conn ps m w = (Err e, w')).
Proof.
  intros Hs. split.
  - intros bins w' H. rewrite (getAttachment_unfold _ _ _ _ _ Hs) in H.
    apply forAwait_await_ok in H as [Hall ->]. simpl.
    repeat split; try done. symmetry. by eapply Forall2_length.
  - intros part reason Hin Hrej. rewrite (getAttachment_unfold _ _ _ _ _ Hs).
    destruct (forAwait_await_rejected (fetchedAttachment ext conn m) _ _ _ Hin Hrej
                {| lastMessageUid := lastMessageUid w;
                   trace := trace w ++ map (fun part => ImapGetPartData (uid m) (partID part))
                                           (attachmentPartsOf ps) |}) as [e He].
    rewrite He. by eexists _, _.
Qed.

Lemma getAttachment_one_binary_per_part_witness :
  let ext := refExternals plainParser in
  let conn := storeWith [withAttachment] in
  let ps := [{| partID := "2"; type := "application"; subtype := "pdf";
                disposition := Some {| disposition_type := "Attachment";
                                       filename := "report.pdf" |} |};
             {| partID := "1"; type := "text"; subtype := "plain"; disposition := None |}] in
  let r := getAttachment ext conn ps withAttachment (freshWorld None) in
  exists bins,
    fst r = Ok bins /\
    Forall2 (fun part bin => fetchedAttachment ext conn withAttachment part = Resolved bin)
            (attachmentPartsOf ps) bins /\
    length bins = 1%nat /\
    trace (snd r) = [ImapGetPartData 8 "2"].
Proof.
  destruct (getAttachment_one_binary_per_part (refExternals plainParser)
              (storeWith [withAttachment])
              [{| partID := "2"; type := "application"; subtype := "pdf";
                  disposition := Some {| disposition_type := "Attachment";
                                         filename := "report.pdf" |} |};
               {| partID := "1"; type := "text"; subtype := "plain"; disposition := None |}]
              withAttachment (freshWorld None) ltac:(done)) as [Hok _].
  eexists. split; [vm_compute; reflexivity|].
  destruct (Hok _ _ ltac:(vm_compute; reflexivity)) as (Hall & Hlen & Htrace & _).
  split; [exact Hall|]. split; [exact Hlen | exact Htrace].
Defined.

(** ** The header fields of the simple format *)

Lemma headerValues_of_field fields k vs :
  NoDup (map fst fields) -> (k, vs) ∈ fields -> headerValues fields k = vs.
Proof.
  unfold headerValues. induction fields as [|[k' vs'] fields IH]; intros Hnd Hin.
  - by apply elem_of_nil in Hin.
  - simpl in *. apply NoDup_cons in Hnd as [Hfresh Hnd].
    destruct (String.eqb_spec k' k) as [->|Hne].
    + apply elem_of_cons in Hin as [[= ->]|Hin]; [done|].
      exfalso. apply Hfresh. apply list_elem_of_fmap. by exists (k, vs).
    + apply elem_of_cons in Hin as [[= -> ->]|Hin]; [done|]. by apply IH.
Qed.

Lemma copyHeaders_top messageBody keys k : forall top metadata,
  (copyHeaders messageBody keys top metadata).1 !! k =
  match headerValues messageBody k with
  | first :: _ =>
      if bool_decide (k ∈ keys /\ k ∈ topLevelProperties) then Some (JString first)
      else top !! k
  | [] => top !! k
  end.
Proof.
  induction keys as [|propertyName keys IH]; intros top metadata; cbn [copyHeaders].
  - cbn [fst]. destruct (headerValues messageBody k); [done|].
    rewrite bool_decide_eq_false_2; [done|]. intros [Hin _]. by apply elem_of_nil in Hin.
  - destruct (headerValues messageBody propertyName) as [|first others] eqn:Hv.
    + rewrite IH. destruct (headerValues messageBody k) as [|first' others'] eqn:Hk; [done|].
      erewrite bool_decide_ext; [reflexivity|]. rewrite elem_of_cons.
      split; [intros [? ?]; by split; [right|] | intros [[->|?] ?]; [congruence | done]].
    + destruct (bool_decide (propertyName ∈ topLevelProperties)) eqn:Htop; rewrite IH.
      * apply bool_decide_eq_true in Htop.
        destruct (headerValues messageBody k) as [|first' others'] eqn:Hk.
        -- rewrite lookup_insert_ne; [done|]. intros ->. congruence.
        -- destruct (decide (propertyName = k)) as [->|Hne].
           ++ rewrite lookup_insert_eq.
              rewrite Hv in Hk. injection Hk as <- <-.
              rewrite (bool_decide_eq_true_2 (k ∈ k :: keys /\ _)); [|split; [by left | done]].
              by case_bool_decide.
           ++ rewrite lookup_insert_ne by done.
              erewrite bool_decide_ext; [reflexivity|]. rewrite elem_of_cons.
              split; [intros [? ?]; by split; [right|] | intros [[->|?] ?]; [done | done]].
      * apply bool_decide_eq_false in Htop.
        destruct (headerValues messageBody k) as [|first' others'] eqn:Hk; [done|].
        erewrite bool_decide_ext; [reflexivity|]. rewrite elem_of_cons.
        split; [intros [? ?]; by split; [right|] | intros [[->|?] ?]; [done | done]].
Qed.

Lemma copyHeaders_metadata messageBody keys k : forall top metadata,
  (copyHeaders messageBody keys top metadata).2 !! k =
  match headerValues messageBody k with
  | first :: _ =>
      if bool_decide (k ∈ keys /\ k ∉ topLevelProperties) then Some first
      else metadata !! k
  | [] => metadata !! k
  end.
Proof.
  induction keys as [|propertyName keys IH]; intros top metadata; cbn [copyHeaders].
  - cbn [snd]. destruct (headerValues messageBody k); [done|].
    rewrite bool_decide_eq_false_2; [done|]. intros [Hin _]. by apply elem_of_nil in Hin.
  - destruct (headerValues messageBody propertyName) as [|first others] eqn:Hv.
    + rewrite IH. destruct (headerValues messageBody k) as [|first' others'] eqn:Hk; [done|].
      erewrite bool_decide_ext; [reflexivity|]. rewrite elem_of_cons.
      split; [intros [? ?]; by split; [right|] | intros [[->|?] ?]; [congruence | done]].
    + destruct (bool_decide (propertyName ∈ topLevelProperties)) eqn:Htop; rewrite IH.
      * apply bool_decide_eq_true in Htop.
        destruct (headerValues messageBody k) as [|first' others'] eqn:Hk; [done|].
        erewrite bool_decide_ext; [reflexivity|]. rewrite elem_of_cons.
        split; [intros [? ?]; by split; [right|] | intros [[->|?] ?]; [done | done]].
      * apply bool_decide_eq_false in Htop.
        destruct (headerValues messageBody k) as [|first' others'] eqn:Hk.
        -- rewrite lookup_insert_ne; [done|]. intros ->. congruence.
        -- destruct (decide (propertyName = k)) as [->|Hne].
           ++ rewrite lookup_insert_eq.
              rewrite Hv in Hk. injection Hk as <- <-.
              rewrite (bool_decide_eq_true_2 (k ∈ k :: keys /\ _)); [|split; [by left | done]].
              by case_bool_decide.
           ++ rewrite lookup_insert_ne by done.
              erewrite bool_decide_ext; [reflexivity|]. rewrite elem_of_cons.
              split; [intros [? ?]; by split; [right|] | intros [[->|?] ?]; [done | done]].
Qed.

Lemma topLevel_not_reserved k :
  k ∈ topLevelProperties -> k <> "metadata" /\ k <> "textHtml" /\ k <> "textPlain".
Proof.
  unfold topLevelProperties. rewrite !elem_of_cons, elem_of_nil.
  intros [->|[->|[->|[->|[->|[]]]]]]; done.
Qed.

Lemma simpleBody_json ext conn dl prefix m w ev w' header :
  simpleBody ext conn dl prefix m w = (Ok ev, w') ->
  requiredPart simple m = Some header ->
  exists textHtml textPlain,
    json ev =
    <["metadata" :=
        JObject (copyHeaders (headerObject (body header)) (map fst (headerObject (body header)))
                   {[ "textHtml" := JString textHtml; "textPlain" := JString textPlain ]} ∅).2]>
      (copyHeaders (headerObject (body header)) (map fst (headerObject (body header)))
         {[ "textHtml" := JString textHtml; "textPlain" := JString textPlain ]} ∅).1.
Proof.
  intros H Hheader. destruct (filter_head_of_find _ _ _ Hheader) as [rest Hfilter].
  unfold simpleBody, bind in H.
  destruct (getParts ext (struct m)) as [ps|reason]; simpl in H; [|done].
  destruct (getText conn ps m "html" w) as [[html|e] wa]; [|done].
  destruct (getText conn ps m "plain" wa) as [[plain|e] wb]; [|done].
  rewrite Hfilter in H. exists html, plain.
  destruct (copyHeaders _ _ _ _) as [top metadata].
  destruct dl.
  - destruct (getAttachment ext conn ps m wb) as [[bins|e] wc]; [|done].
    destruct bins; by inversion H.
  - by inversion H.
Qed.

Lemma headerValues_absent fields k :
  k ∉ map fst fields -> headerValues fields k = [].
Proof.
  unfold headerValues. induction fields as [|[k' vs'] fields IH]; intros Hk; [done|].
  simpl in *. apply not_elem_of_cons in Hk as [Hne Hk].
  destruct (String.eqb_spec k' k) as [->|_]; [done | by apply IH].
Qed.

Lemma top_level_start (textHtml textPlain : string) k :
  ~ reserved k ->
  ({[ "textHtml" := JString textHtml; "textPlain" := JString textPlain ]}
     : gmap string JsonValue) !! k = None.
Proof.
  intros Hk. rewrite lookup_insert_ne by (intros <-; apply Hk; right; by left).
  apply lookup_singleton_ne. intros <-. apply Hk. right. by right.
Qed.

(** X8. In an event of the simple format, a header field with at least
    one value is stored with its first value: at the top level of [json]
    when its name is cc, date, from, subject or to, and in the [metadata]
    object otherwise, never in both; a field with no value is stored
    nowhere. Nothing else is stored: the top level holds, next to these
    fields, the two texts and the metadata object only, and the metadata
    object the other fields only. *)
Theorem simple_places_header_fields ext conn dl prefix m w ev w' header :
  simpleBody ext conn dl prefix m w = (Ok ev, w') ->
  requiredPart simple m = Some header ->
  NoDup (map fst (headerObject (body header))) ->
  exists metadata textHtml textPlain,
    json ev !! "metadata" = Some (JObject metadata) /\
    json ev !! "textHtml" = Some (JString textHtml) /\
    json ev !! "textPlain" = Some (JString textPlain) /\
    (forall k first others,
       (k, first :: others) ∈ headerObject (body header) ->
       if bool_decide (k ∈ topLevelProperties)
       then json ev !! k = Some (JString first) /\ metadata !! k = None
       else metadata !! k = Some first /\ (~ reserved k -> json ev !! k = None)) /\
    (forall k,
       (k, []) ∈ headerObject (body header) \/ k ∉ map fst (headerObject (body header)) ->
       metadata !! k = None /\ (~ reserved k -> json ev !! k = None)).
Proof.
  intros H Hheader Hnd.
  destruct (simpleBody_json _ _ _ _ _ _ _ _ _ H Hheader) as (html & plain & ->).
  eexists. exists html, plain. split; [apply lookup_insert_eq|].
  split; [|split; [|split]].
  - rewrite lookup_insert_ne by done.
    by rewrite (copyHeaders_top_other _ _ _ textHtml_not_top_level).
  - rewrite lookup_insert_ne by done.
    rewrite (copyHeaders_top_other _ _ _ textPlain_not_top_level).
    rewrite lookup_insert_ne by done. apply lookup_singleton_eq.
  - intros k first others Hin.
    pose proof (headerValues_of_field _ _ _ Hnd Hin) as Hv.
    assert (Hkey : k ∈ map fst (headerObject (body header))).
    { apply list_elem_of_fmap. by exists (k, first :: others). }
    case_bool_decide as Htop.
    + destruct (topLevel_not_reserved _ Htop) as [Hne _]. split.
      * rewrite lookup_insert_ne by done. rewrite copyHeaders_top, Hv.
        by rewrite bool_decide_eq_true_2.
      * rewrite copyHeaders_metadata, Hv.
        rewrite bool_decide_eq_false_2; [done|]. intros [_ Hno]. by apply Hno.
    + split.
      * rewrite copyHeaders_metadata, Hv. by rewrite bool_decide_eq_true_2.
      * intros Hk. rewrite lookup_insert_ne by (intros <-; apply Hk; by left).
        rewrite (copyHeaders_top_other _ _ _ Htop). by apply top_level_start.
  - intros k Hk.
    assert (Hv : headerValues (headerObject (body header)) k = []).
    { destruct Hk as [Hin|Hout];
        [by apply (headerValues_of_field _ _ _ Hnd Hin) | by apply headerValues_absent]. }
    split.
    + by rewrite copyHeaders_metadata, Hv.
    + intros Hr. rewrite lookup_insert_ne by (intros <-; apply Hr; by left).
      rewrite copyHeaders_top, Hv. by apply top_level_start.
Qed.

Lemma simple_places_header_fields_witness :
  let ext := refExternals plainParser in
  let m := mail 6 [headerPart [("subject", ["hello"; "again"]); ("x-mailer", ["mutt"]);
                               ("cc", [])]] in
  let ev := eventOf (simpleBody ext (storeWith [m]) false "" m (freshWorld None)) in
  exists metadata textHtml textPlain,
    json ev !! "metadata" = Some (JObject metadata) /\
    json ev !! "textHtml" = Some (JString textHtml) /\
    json ev !! "textPlain" = Some (JString textPlain) /\
    (json ev !! "subject" = Some (JString "hello") /\ metadata !! "subject" = None) /\
    (metadata !! "x-mailer" = Some "mutt" /\ json ev !! "x-mailer" = None) /\
    (metadata !! "cc" = None /\ json ev !! "cc" = None) /\
    (metadata !! "to" = None /\ json ev !! "to" = None).
Proof.
  destruct (simple_places_header_fields (refExternals plainParser)
              (storeWith [mail 6 [headerPart [("subject", ["hello"; "again"]);
                                              ("x-mailer", ["mutt"]); ("cc", [])]]])
              false ""
              (mail 6 [headerPart [("subject", ["hello"; "again"]); ("x-mailer", ["mutt"]);
                                   ("cc", [])]])
              (freshWorld None) _ _
              (headerPart [("subject", ["hello"; "again"]); ("x-mailer", ["mutt"]); ("cc", [])])
              ltac:(vm_compute; reflexivity) ltac:(reflexivity)
              ltac:(simpl; repeat (apply NoDup_cons; split;
                                   [rewrite ?not_elem_of_cons; repeat split; try done;
                                    apply not_elem_of_nil|]); apply NoDup_nil; done))
    as (metadata & html & plain & Hmeta & Hhtml & Hplain & Hfields & Hempty).
  exists metadata, html, plain.
  split; [exact Hmeta|]. split; [exact Hhtml|]. split; [exact Hplain|].
  pose proof (Hfields "subject" "hello" ["again"] ltac:(by left)) as Hsubject.
  pose proof (Hfields "x-mailer" "mutt" [] ltac:(by right; left)) as Hmailer.
  pose proof (Hempty "cc" ltac:(left; by right; right; left)) as [Hcc Hcc'].
  pose proof (Hempty "to" ltac:(right; simpl; rewrite !not_elem_of_cons; repeat split;
                                try done; apply not_elem_of_nil)) as [Hto Hto'].
  rewrite bool_decide_eq_true_2 in Hsubject
    by (unfold topLevelProperties; rewrite !elem_of_cons; by right; right; right; left).
  rewrite bool_decide_eq_false_2 in Hmailer
    by (unfold topLevelProperties; rewrite !not_elem_of_cons; repeat split; try done;
        apply not_elem_of_nil).
  destruct Hmailer as [Hmailer Hmailer'].
  split; [exact Hsubject|].
  split; [split; [exact Hmailer | apply Hmailer'; by intros [?|[?|?]]]|].
  split; [split; [exact Hcc | apply Hcc'; by intros [?|[?|?]]]|].
  split; [exact Hto | apply Hto'; by intros [?|[?|?]]].
Defined.

(** ** The json of the resolved format *)

Lemma headers_fold k hs : forall acc : gmap string string,
  fold_left (fun m header => <[key header := line header]> m) hs acc !! k =
  match last (linesOf k hs) with
  | Some header => Some (line header)
  | None => acc !! k
  end.
Proof.
  induction hs as [|h hs IH]; intros acc; [done|].
  cbn [fold_left]. rewrite IH. unfold linesOf. cbn [List.filter].
  destruct (String.eqb_spec (key h) k) as [->|Hne].
  - rewrite last_cons. destruct (last (List.filter _ hs)); [done|]. apply lookup_insert_eq.
  - destruct (last (List.filter _ hs)); [done|]. by apply lookup_insert_ne.
Qed.

(** X9. An event of the resolved format takes its json from the parsed
    mail: [headers] maps each header key to the line of the last header
    line with that key, [headerLines] is undefined, [attachments] is
    undefined whenever the parsed mail had an attachment list, and every
    other decoded field is kept as parsed. Parsing makes no call on the
    store. *)
Theorem resolved_json_of_parsed_mail ext b prefix w ev w' :
  parseRawEmail ext b prefix w = (Ok ev, w') ->
  exists mailData headers,
    simpleParser ext b = Resolved mailData /\
    json ev !! "headers" = Some (JObject headers) /\
    (forall k, headers !! k = line <$> last (linesOf k (headerLines mailData))) /\
    json ev !! "headerLines" = Some JUndefined /\
    (attachments mailData <> None -> json ev !! "attachments" = Some JUndefined) /\
    (forall k, k <> "headers" -> k <> "headerLines" -> k <> "attachments" ->
               json ev !! k = decoded mailData !! k) /\
    w' = w.
Proof.
  intros H. pose proof (silent_parseRawEmail _ _ _ _ _ _ H) as ->.
  unfold parseRawEmail, bind in H.
  destruct (simpleParser ext b) as [mailData|reason]; simpl in H; [|done].
  exists mailData. eexists. split; [done|].
  assert (Hjson : json ev =
    match attachments mailData with
    | Some _ =>
        <["attachments" := JUndefined]>
          (<["headerLines" := JUndefined]>
             (<["headers" := JObject (fold_left (fun hs header => <[key header := line header]> hs)
                                        (headerLines mailData) ∅)]> (decoded mailData)))
    | None =>
        <["headerLines" := JUndefined]>
          (<["headers" := JObject (fold_left (fun hs header => <[key header := line header]> hs)
                                     (headerLines mailData) ∅)]> (decoded mailData))
    end).
  { destruct (attachments mailData) as [atts|].
    - destruct (storeAttachments ext prefix 0 atts ∅ w) as [[stored|e] w1]; [|done].
      by inversion H.
    - by inversion H. }
  rewrite Hjson. clear H Hjson. repeat split.
  - destruct (attachments mailData); [rewrite lookup_insert_ne by done|];
      rewrite lookup_insert_ne by done; apply lookup_insert_eq.
  - intros k. rewrite headers_fold. by destruct (last _).
  - destruct (attachments mailData); [rewrite lookup_insert_ne by done|];
      apply lookup_insert_eq.
  - intros Hatt. destruct (attachments mailData); [|done]. apply lookup_insert_eq.
  - intros k H1 H2 H3. destruct (attachments mailData);
      [rewrite lookup_insert_ne by done|]; by rewrite !lookup_insert_ne.
Qed.

Lemma resolved_json_of_parsed_mail_witness :
  let ext := refExternals attachmentParser in
  let ev := eventOf (parseRawEmail ext (BodyText "mime") "attachment_" (freshWorld None)) in
  exists mailData headers,
    simpleParser ext (BodyText "mime") = Resolved mailData /\
    json ev !! "headers" = Some (JObject headers) /\
    (forall k, headers !! k = line <$> last (linesOf k (headerLines mailData))) /\
    json ev !! "headerLines" = Some JUndefined /\
    (attachments mailData <> None -> json ev !! "attachments" = Some JUndefined) /\
    (forall k, k <> "headers" -> k <> "headerLines" -> k <> "attachments" ->
               json ev !! k = decoded mailData !! k) /\
    snd (parseRawEmail ext (BodyText "mime") "attachment_" (freshWorld None)) = freshWorld None.
Proof.
  apply (resolved_json_of_parsed_mail (refExternals attachmentParser) (BodyText "mime")
           "attachment_" (freshWorld None)).
  vm_compute. reflexivity.
Defined.

(** ** Notifications *)

(** What the operations on the watcher leave in each of its fields. *)
Lemma world_withWorld w wd : world (withWorld w wd) = wd.
Proof. done. Qed.
Lemma world_logW e w : world (logW e w) = logged (world w) e.
Proof. done. Qed.
Lemma world_withClosures w cl : world (withClosures w cl) = world w.
Proof. done. Qed.
Lemma world_withConnection w k : world (withConnection w k) = world w.
Proof. done. Qed.
Lemma closures_withWorld w wd : closures (withWorld w wd) = closures w.
Proof. done. Qed.
Lemma closures_logW e w : closures (logW e w) = closures w.
Proof. done. Qed.
Lemma closures_withClosures w cl : closures (withClosures w cl) = cl.
Proof. done. Qed.
Lemma closures_withConnection w k : closures (withConnection w k) = closures w.
Proof. done. Qed.
Lemma connection_withWorld w wd : connection (withWorld w wd) = connection w.
Proof. done. Qed.
Lemma connection_logW e w : connection (logW e w) = connection w.
Proof. done. Qed.
Lemma connection_withClosures w cl : connection (withClosures w cl) = connection w.
Proof. done. Qed.
Lemma connection_withConnection w k : connection (withConnection w k) = Some k.
Proof. done. Qed.
Lemma resolved_withWorld w wd :
  returnedPromiseResolved (withWorld w wd) = returnedPromiseResolved w.
Proof. done. Qed.
Lemma resolved_logW e w : returnedPromiseResolved (logW e w) = returnedPromiseResolved w.
Proof. done. Qed.
Lemma resolved_withClosures w cl :
  returnedPromiseResolved (withClosures w cl) = returnedPromiseResolved w.
Proof. done. Qed.
Lemma resolved_withConnection w k :
  returnedPromiseResolved (withConnection w k) = returnedPromiseResolved w.
Proof. done. Qed.
Lemma waiting_withWorld w wd : waiting (withWorld w wd) = waiting w.
Proof. done. Qed.
Lemma waiting_logW e w : waiting (logW e w) = waiting w.
Proof. done. Qed.
Lemma waiting_withClosures w cl : waiting (withClosures w cl) = waiting w.
Proof. done. Qed.
Lemma waiting_withConnection w k : waiting (withConnection w k) = waiting w.
Proof. done. Qed.
Lemma interval_withWorld w wd : reconnectionInterval (withWorld w wd) = reconnectionInterval w.
Proof. done. Qed.
Lemma interval_logW e w : reconnectionInterval (logW e w) = reconnectionInterval w.
Proof. done. Qed.
Lemma interval_withClosures w cl :
  reconnectionInterval (withClosures w cl) = reconnectionInterval w.
Proof. done. Qed.
Lemma interval_withConnection w k :
  reconnectionInterval (withConnection w k) = reconnectionInterval w.
Proof. done. Qed.
Lemma trace_logged w e : trace (logged w e) = trace w ++ [e].
Proof. done. Qed.
Lemma mark_logged w e : lastMessageUid (logged w e) = lastMessageUid w.
Proof. done. Qed.

Lemma world_emitErrorWhenResolved e w :
  world (emitErrorWhenResolved e w) =
  if returnedPromiseResolved w then logged (world w) (EmitError e) else world w.
Proof. unfold emitErrorWhenResolved. by destruct (returnedPromiseResolved w). Qed.
Lemma closures_emitErrorWhenResolved e w : closures (emitErrorWhenResolved e w) = closures w.
Proof. unfold emitErrorWhenResolved. by destruct (returnedPromiseResolved w). Qed.
Lemma connection_emitErrorWhenResolved e w :
  connection (emitErrorWhenResolved e w) = connection w.
Proof. unfold emitErrorWhenResolved. by destruct (returnedPromiseResolved w). Qed.
Lemma resolved_emitErrorWhenResolved e w :
  returnedPromiseResolved (emitErrorWhenResolved e w) = returnedPromiseResolved w.
Proof. unfold emitErrorWhenResolved. by destruct (returnedPromiseResolved w) eqn:H. Qed.
Lemma waiting_emitErrorWhenResolved e w :
  waiting (emitErrorWhenResolved e w) =
  if returnedPromiseResolved w then waiting w else waiting w ++ [e].
Proof. unfold emitErrorWhenResolved. by destruct (returnedPromiseResolved w). Qed.
Lemma interval_emitErrorWhenResolved e w :
  reconnectionInterval (emitErrorWhenResolved e w) = reconnectionInterval w.
Proof. unfold emitErrorWhenResolved. by destruct (returnedPromiseResolved w). Qed.

Create Rewrite HintDb watcher.
#[local] Hint Rewrite
  world_withWorld world_logW world_withClosures world_withConnection
  closures_withWorld closures_logW closures_withClosures closures_withConnection
  connection_withWorld connection_logW connection_withClosures connection_withConnection
  resolved_withWorld resolved_logW resolved_withClosures resolved_withConnection
  waiting_withWorld waiting_logW waiting_withClosures waiting_withConnection
  interval_withWorld interval_logW interval_withClosures interval_withConnection
  trace_logged mark_logged
  world_emitErrorWhenResolved closures_emitErrorWhenResolved connection_emitErrorWhenResolved
  resolved_emitErrorWhenResolved waiting_emitErrorWhenResolved interval_emitErrorWhenResolved
  : watcher.

Ltac watcher_fields := autorewrite with watcher in *.

Lemma onMail_unfold ext params k current w c arr :
  connection w = Some c ->
  closures w !! k = Some arr ->
  onMail ext params k current w =
  let w1 := withClosures w (match lastMessageUid (world w) with
                            | Some lastUid => <[k := arr ++ [uidCriterion lastUid]]> (closures w)
                            | None => closures w
                            end) in
  match getNewEmails ext params current (criteriaSent arr (lastMessageUid (world w))) (world w) with
  | (Ok returnData, wd) =>
      if (0 <? length returnData)%nat
      then logW (Emit returnData) (withWorld w1 wd)
      else withWorld w1 wd
  | (Err error, wd) =>
      emitErrorWhenResolved error (logW (LoggerError fetchErrorText) (withWorld w1 wd))
  end.
Proof.
  intros Hc Hk. unfold onMail, criteriaSent. rewrite Hc, Hk.
  destruct (lastMessageUid (world w)) as [lastUid|] eqn:Hl.
  - unfold pushCriterion. rewrite Hk. simpl.
    rewrite list_lookup_insert_eq by (by eapply lookup_lt_Some). done.
  - rewrite Hk. simpl. by destruct w.
Qed.

Lemma emittedBatches_app t1 t2 :
  emittedBatches (t1 ++ t2) = emittedBatches t1 ++ emittedBatches t2.
Proof. unfold emittedBatches. apply flat_map_app. Qed.

Lemma partRequests_no_batches t : Forall partRequest t -> emittedBatches t = [].
Proof. induction 1 as [|e t [u [part ->]] _ IH]; [done|]. exact IH. Qed.

Lemma cycle_emits_no_batch ext params conn crit w r w' :
  getNewEmails ext params conn crit w = (r, w') ->
  emittedBatches (trace w') = emittedBatches (trace w).
Proof.
  intros H. destruct (cycle_shape _ _ _ _ _ _ _ H) as (t & tail & T & F & Hcase).
  rewrite T, emittedBatches_app. simpl. rewrite emittedBatches_app.
  rewrite (partRequests_no_batches _ F). simpl.
  assert (Htail : emittedBatches tail = []).
  { destruct (search conn crit _) as [results|reason].
    - destruct Hcase as [[-> | ->] _]; [done|]. unfold closingFlags.
      by destruct (postProcessAction params), results.
    - by destruct Hcase as (_ & _ & -> & _). }
  by rewrite Htail, app_nil_r.
Qed.

(** X10. A notification handled while a connection is held gives [emit]
    one batch, the events the fetch cycle returned, when the cycle completed
    with at least one event; it gives [emit] nothing when the cycle returned
    no event or failed. An empty batch is never emitted. The cycle is run
    with the criteria of the connection's array and, when there is a mark,
    one more UID criterion. *)
Theorem notification_emits_one_nonempty_batch ext params k current w c arr :
  connection w = Some c ->
  closures w !! k = Some arr ->
  emittedBatches (trace (world (onMail ext params k current w))) =
  emittedBatches (trace (world w)) ++
  match fst (getNewEmails ext params current
               (criteriaSent arr (lastMessageUid (world w))) (world w)) with
  | Ok (e :: es) => [e :: es]
  | _ => []
  end.
Proof.
  intros Hc Hk. rewrite (onMail_unfold _ _ _ _ _ _ _ Hc Hk). cbv zeta.
  destruct (getNewEmails ext params current _ (world w)) as [[evs|err] wd] eqn:Hcycle;
    pose proof (cycle_emits_no_batch _ _ _ _ _ _ _ Hcycle) as Hb; cbn [fst].
  - destruct evs as [|e es]; cbn [length Nat.ltb Nat.leb]; watcher_fields.
    + by rewrite Hb, app_nil_r.
    + by rewrite emittedBatches_app, Hb.
  - watcher_fields. destruct (returnedPromiseResolved w); watcher_fields;
      rewrite ?emittedBatches_app, Hb; cbn; by rewrite ?app_nil_r.
Qed.

Lemma notification_emits_one_nonempty_batch_witness :
  let ext := refExternals plainParser in
  let params := paramsFor raw nothing in
  let w := readyWatcher params (Some 7%N) in
  length (emittedBatches (trace (world (onMail ext params 0 (storeWith batch579) w)))) = 1%nat /\
  emittedBatches (trace (world (onMail ext params 0 (storeWith batch579) w))) =
  emittedBatches (trace (world w)) ++
  match fst (getNewEmails ext params (storeWith batch579)
               (criteriaSent unseen (lastMessageUid (world w))) (world w)) with
  | Ok (e :: es) => [e :: es]
  | _ => []
  end.
Proof.
  split; [vm_compute; reflexivity|].
  apply (notification_emits_one_nonempty_batch (refExternals plainParser) (paramsFor raw nothing)
           0 (storeWith batch579) (readyWatcher (paramsFor raw nothing) (Some 7%N)) 0%nat unseen);
    reflexivity.
Defined.

(** X11. A notification handled while a connection is held and a mark
    exists appends one UID criterion for the mark to the criteria array of
    its connection, leaves the arrays of the other connections alone, and
    searches with the grown array; without a mark it changes no array and
    searches with the array as it is. *)
Theorem notification_extends_its_criteria ext params k current w c arr :
  connection w = Some c ->
  closures w !! k = Some arr ->
  closures (onMail ext params k current w) !! k =
    Some (criteriaSent arr (lastMessageUid (world w))) /\
  (forall j, j <> k -> closures (onMail ext params k current w) !! j = closures w !! j) /\
  length (closures (onMail ext params k current w)) = length (closures w) /\
  exists t,
    trace (world (onMail ext params k current w)) =
    trace (world w) ++
    ImapSearch (criteriaSent arr (lastMessageUid (world w))) (fetchOptionsFor (format params)) :: t.
Proof.
  intros Hc Hk. rewrite (onMail_unfold _ _ _ _ _ _ _ Hc Hk). cbv zeta.
  assert (Hclosures : forall wd : World,
    let cl := match lastMessageUid (world w) with
              | Some lastUid => <[k := arr ++ [uidCriterion lastUid]]> (closures w)
              | None => closures w
              end in
    cl !! k = Some (criteriaSent arr (lastMessageUid (world w))) /\
    (forall j, j <> k -> cl !! j = closures w !! j) /\
    length cl = length (closures w)).
  { intros _. unfold criteriaSent. destruct (lastMessageUid (world w)); simpl.
    - split; [apply list_lookup_insert_eq; by eapply lookup_lt_Some|].
      split; [intros j Hj; by apply list_lookup_insert_ne | apply length_insert].
    - by repeat split. }
  destruct (Hclosures (world w)) as (H1 & H2 & H3).
  destruct (getNewEmails ext params current _ (world w)) as [[evs|err] wd] eqn:Hcycle;
    destruct (cycle_trace_starts_with_search _ _ _ _ _ _ _ Hcycle) as [t Ht].
  - destruct (0 <? length evs)%nat; watcher_fields; repeat split; try done.
    + exists (t ++ [Emit evs]). rewrite Ht. by rewrite <- app_assoc.
    + by exists t.
  - watcher_fields. repeat split; try done.
    destruct (returnedPromiseResolved w); watcher_fields;
      eexists; rewrite Ht, <- !app_assoc; simpl; reflexivity.
Qed.

Lemma notification_extends_its_criteria_witness :
  let ext := refExternals plainParser in
  let params := paramsFor raw nothing in
  let w := readyWatcher params (Some 5%N) in
  let w' := onMail ext params 0 (storeWith batch79) w in
  closures w' !! 0%nat = Some [Crit "UNSEEN"; CritList [Crit "UID"; Crit "5:*"]] /\
  closures (onMail ext params 0 (storeWith []) w') !! 0%nat =
    Some (criteriaSent [Crit "UNSEEN"; CritList [Crit "UID"; Crit "5:*"]] (Some 9%N)).
Proof.
  split.
  - apply (notification_extends_its_criteria (refExternals plainParser) (paramsFor raw nothing)
             0 (storeWith batch79) (readyWatcher (paramsFor raw nothing) (Some 5%N))
             0%nat unseen); reflexivity.
  - apply (notification_extends_its_criteria (refExternals plainParser) (paramsFor raw nothing)
             0 (storeWith [])
             (onMail (refExternals plainParser) (paramsFor raw nothing) 0 (storeWith batch79)
                (readyWatcher (paramsFor raw nothing) (Some 5%N)))
             0%nat [Crit "UNSEEN"; CritList [Crit "UID"; Crit "5:*"]]);
      vm_compute; reflexivity.
Defined.

(** ** The watcher over its lifetime *)

Lemma establishConnection_unfold ext params o w :
  establishConnection ext params o w =
  match baseCriteria ext params with
  | Err e => (Err e, w)
  | Ok base =>
      (match o with
       | Resolved _ => Ok (length (closures w))
       | Rejected reason => Err (ExternalError reason)
       end,
       logW ImapConnect (withClosures w (closures w ++ [base])))
  end.
Proof.
  unfold establishConnection. destruct (baseCriteria ext params); [|done]. by destruct o.
Qed.

(** What holds of a watcher after a handler ran if it holds of every
    watcher that differs from the first one by logged calls, more criteria
    arrays, or another current connection. *)
Lemma establishConnection_fields ext params o w :
  let w' := snd (establishConnection ext params o w) in
  lastMessageUid (world w') = lastMessageUid (world w) /\
  returnedPromiseResolved w' = returnedPromiseResolved w /\
  waiting w' = waiting w /\
  reconnectionInterval w' = reconnectionInterval w /\
  connection w' = connection w /\
  emittedErrors (trace (world w')) = emittedErrors (trace (world w)) /\
  emittedBatches (trace (world w')) = emittedBatches (trace (world w)).
Proof.
  rewrite establishConnection_unfold. destruct (baseCriteria ext params); simpl; [|done].
  watcher_fields. rewrite emittedErrors_app, emittedBatches_app. simpl.
  by rewrite !app_nil_r.
Qed.

Lemma onMail_fields ext params k current w :
  returnedPromiseResolved (onMail ext params k current w) = returnedPromiseResolved w /\
  reconnectionInterval (onMail ext params k current w) = reconnectionInterval w /\
  connection (onMail ext params k current w) = connection w /\
  hwm_le (lastMessageUid (world w)) (lastMessageUid (world (onMail ext params k current w))) /\
  (returnedPromiseResolved w = true -> waiting w = [] ->
   waiting (onMail ext params k current w) = []).
Proof.
  destruct (connection w) as [c|] eqn:Hc;
    [|unfold onMail; rewrite Hc; repeat split; auto using hwm_le_refl].
  destruct (closures w !! k) as [arr|] eqn:Hk;
    [|unfold onMail; rewrite Hc, Hk; repeat split; auto using hwm_le_refl].
  rewrite (onMail_unfold _ _ _ _ _ _ _ Hc Hk). cbv zeta.
  destruct (getNewEmails ext params current _ (world w)) as [[evs|err] wd] eqn:Hcycle.
  - assert (Hmark : hwm_le (lastMessageUid (world w)) (lastMessageUid wd)).
    { change wd with (snd (Ok evs, wd)). rewrite <- Hcycle.
      change (snd (getNewEmails ext params current
                     (criteriaSent arr (lastMessageUid (world w))) (world w)))
        with (runCycle ext params (world w)
                (current, criteriaSent arr (lastMessageUid (world w)))).
      rewrite runCycle_mark. apply hwm_le_hwmMax. }
    destruct (0 <? length evs)%nat; watcher_fields; repeat split; auto.
  - assert (Hmark : hwm_le (lastMessageUid (world w)) (lastMessageUid wd)).
    { change wd with (snd (@Err (list INodeExecutionData) err, wd)). rewrite <- Hcycle.
      change (snd (getNewEmails ext params current
                     (criteriaSent arr (lastMessageUid (world w))) (world w)))
        with (runCycle ext params (world w)
                (current, criteriaSent arr (lastMessageUid (world w)))).
      rewrite runCycle_mark. apply hwm_le_hwmMax. }
    watcher_fields. repeat split; auto.
    + destruct (returnedPromiseResolved w); by watcher_fields.
    + intros Hr Hw. by rewrite Hr.
Qed.

Lemma onConnectionError_fields ext params code reconnect reopen w :
  let w' := onConnectionError ext params code reconnect reopen w in
  lastMessageUid (world w') = lastMessageUid (world w) /\
  returnedPromiseResolved w' = returnedPromiseResolved w /\
  waiting w' = waiting w /\
  reconnectionInterval w' = reconnectionInterval w /\
  emittedBatches (trace (world w')) = emittedBatches (trace (world w)) /\
  emittedErrors (trace (world w')) =
    emittedErrors (trace (world w)) ++ (if isTransient code then [] else [ExternalError code]).
Proof.
  unfold onConnectionError. fold (isTransient code). destruct (isTransient code).
  - destruct (establishConnection_fields ext params reconnect w)
      as (H1 & H2 & H3 & H4 & H5 & H6 & H7).
    destruct (establishConnection ext params reconnect w) as [[k'|e] w1]; simpl in *.
    + destruct reopen; watcher_fields;
        rewrite ?emittedErrors_app, ?emittedBatches_app; simpl;
        rewrite ?app_nil_r; by repeat split.
    + watcher_fields. rewrite ?emittedErrors_app, ?emittedBatches_app; simpl.
      rewrite ?app_nil_r. by repeat split.
  - cbv zeta. watcher_fields. rewrite ?emittedErrors_app, ?emittedBatches_app; simpl.
    rewrite ?app_nil_r. by repeat split.
Qed.

Lemma forcedReconnect_fields ext params reconnect w :
  let w' := forcedReconnect ext params reconnect w in
  lastMessageUid (world w') = lastMessageUid (world w) /\
  returnedPromiseResolved w' = returnedPromiseResolved w /\
  waiting w' = waiting w /\
  reconnectionInterval w' = reconnectionInterval w /\
  emittedBatches (trace (world w')) = emittedBatches (trace (world w)) /\
  emittedErrors (trace (world w')) = emittedErrors (trace (world w)).
Proof.
  unfold forcedReconnect.
  destruct (establishConnection_fields ext params reconnect (logW ImapEnd w))
    as (H1 & H2 & H3 & H4 & H5 & H6 & H7).
  destruct (establishConnection ext params reconnect (logW ImapEnd w)) as [[k'|e] w1];
    simpl in *; watcher_fields;
    rewrite ?emittedErrors_app, ?emittedBatches_app in *; simpl in *;
    rewrite ?app_nil_r in *; by repeat split.
Qed.

Lemma closeFunction_fields w :
  let w' := closeFunction w in
  lastMessageUid (world w') = lastMessageUid (world w) /\
  returnedPromiseResolved w' = returnedPromiseResolved w /\
  waiting w' = waiting w /\
  reconnectionInterval w' = reconnectionInterval w /\
  emittedBatches (trace (world w')) = emittedBatches (trace (world w)) /\
  emittedErrors (trace (world w')) = emittedErrors (trace (world w)).
Proof.
  unfold closeFunction. destruct (reconnectionInterval w) eqn:Hi; cbv zeta; watcher_fields;
    rewrite ?emittedErrors_app, ?emittedBatches_app; simpl; rewrite ?app_nil_r;
    by repeat split.
Qed.

Lemma emittedBatches_errors l : emittedBatches (map EmitError l) = [].
Proof. by induction l. Qed.

Lemma emittedErrors_errors l : emittedErrors (map EmitError l) = l.
Proof. induction l as [|e l IH]; [done|]. simpl. by f_equal. Qed.

Lemma trigger_ready_fields params o w :
  returnedPromiseResolved w = false ->
  let w' := snd (trigger_ready params o w) in
  lastMessageUid (world w') = lastMessageUid (world w) /\
  emittedBatches (trace (world w')) = emittedBatches (trace (world w)) /\
  match o with
  | Resolved _ =>
      returnedPromiseResolved w' = true /\ waiting w' = [] /\
      reconnectionInterval w' = match forceReconnect params with
                                | Some _ => true
                                | None => reconnectionInterval w
                                end /\
      emittedErrors (trace (world w')) = emittedErrors (trace (world w)) ++ waiting w
  | Rejected _ => w' = w
  end.
Proof.
  intros Hr. unfold trigger_ready. destruct o as [[]|reason]; [|done]. cbv zeta.
  unfold resolveReturnedPromise.
  destruct (forceReconnect params) as [minutes|]; simpl; rewrite Hr; simpl;
    rewrite !emittedBatches_app, !emittedErrors_app, emittedBatches_errors,
      emittedErrors_errors; simpl; rewrite !app_nil_r; by repeat split.
Qed.

Lemma run_app ext params w evs1 evs2 :
  run ext params w (evs1 ++ evs2) = run ext params (run ext params w evs1) evs2.
Proof. unfold run. apply fold_left_app. Qed.

Lemma step_fields ext params w ev :
  hwm_le (lastMessageUid (world w)) (lastMessageUid (world (step ext params w ev))) /\
  (returnedPromiseResolved w = true ->
   returnedPromiseResolved (step ext params w ev) = true /\
   reconnectionInterval (step ext params w ev) = reconnectionInterval w).
Proof.
  destruct ev as [k current|code reconnect reopen|o|reconnect|]; simpl.
  - destruct (onMail_fields ext params k current w) as (H1 & H2 & H3 & H4 & H5).
    split; [done|]. intros Hr. by rewrite H1, H2.
  - destruct (onConnectionError_fields ext params code reconnect reopen w)
      as (H1 & H2 & H3 & H4 & _). simpl in *.
    rewrite H1, H2, H4. split; [apply hwm_le_refl | done].
  - destruct (returnedPromiseResolved w) eqn:Hr.
    + split; [apply hwm_le_refl | intros _; by rewrite Hr].
    + destruct (trigger_ready_fields params o w Hr) as (H1 & _). simpl in H1.
      rewrite H1. split; [apply hwm_le_refl | done].
  - destruct (reconnectionInterval w) eqn:Hi; [|split; [apply hwm_le_refl | by rewrite Hi]].
    destruct (forcedReconnect_fields ext params reconnect w) as (H1 & H2 & H3 & H4 & _).
    simpl in *. rewrite H1, H2, H4. split; [apply hwm_le_refl | done].
  - destruct (closeFunction_fields w) as (H1 & H2 & H3 & H4 & _). simpl in *.
    rewrite H1, H2, H4. split; [apply hwm_le_refl | done].
Qed.

Lemma run_fields ext params evs : forall w,
  hwm_le (lastMessageUid (world w)) (lastMessageUid (world (run ext params w evs))) /\
  (returnedPromiseResolved w = true ->
   returnedPromiseResolved (run ext params w evs) = true /\
   reconnectionInterval (run ext params w evs) = reconnectionInterval w).
Proof.
  induction evs as [|ev evs IH]; intros w; [split; [apply hwm_le_refl | done]|].
  change (run ext params w (ev :: evs)) with (run ext params (step ext params w ev) evs).
  destruct (step_fields ext params w ev) as [Hm Hr].
  destruct (IH (step ext params w ev)) as [Hm' Hr']. split.
  - eapply hwm_le_trans; eauto.
  - intros H. destruct (Hr H) as [H1 H2]. destruct (Hr' H1) as [H3 H4].
    split; [done | congruence].
Qed.

(** X12. Over the whole life of a watcher the high-water-mark never
    decreases: whatever notifications, connection errors, reconnections
    and answers follow one another, the mark after any prefix of them is at
    most the mark after all of them. *)
Theorem watcher_mark_never_decreases ext params w evs1 evs2 :
  hwm_le (lastMessageUid (world (run ext params w evs1)))
         (lastMessageUid (world (run ext params w (evs1 ++ evs2)))).
Proof. rewrite run_app. apply run_fields. Qed.

Lemma step_holds_errors ext params w ev :
  recoverable ev ->
  returnedPromiseResolved (step ext params w ev) = false ->
  emittedErrors (trace (world (step ext params w ev))) = emittedErrors (trace (world w)).
Proof.
  intros Hrec Hafter.
  assert (Hbefore : returnedPromiseResolved w = false).
  { destruct (returnedPromiseResolved w) eqn:Hr; [|done].
    destruct (step_fields ext params w ev) as [_ Hstay].
    destruct (Hstay Hr) as [Htrue _]. congruence. }
  destruct ev as [k current|code reconnect reopen|o|reconnect|]; simpl in *.
  - by apply onMail_waits_for_ready.
  - destruct (onConnectionError_fields ext params code reconnect reopen w)
      as (_ & _ & _ & _ & _ & He). simpl in He. rewrite He, Hrec. apply app_nil_r.
  - rewrite Hbefore in *.
    destruct (trigger_ready_fields params o w Hbefore) as (_ & _ & Ho). simpl in Ho.
    destruct o as [[]|reason]; [|by rewrite Ho]. destruct Ho as [Htrue _]. congruence.
  - destruct (reconnectionInterval w); [|done].
    by destruct (forcedReconnect_fields ext params reconnect w) as (_ & _ & _ & _ & _ & He).
  - by destruct (closeFunction_fields w) as (_ & _ & _ & _ & _ & He).
Qed.

(** X13. As long as the connection raises only errors the handler treats
    as transient, nothing is given to [emitError] before [returnedPromise]
    is resolved: after any such sequence of events that leaves the promise
    unresolved, the errors emitted are those emitted before it. *)
Theorem errors_wait_for_ready ext params evs w :
  Forall recoverable evs ->
  returnedPromiseResolved (run ext params w evs) = false ->
  emittedErrors (trace (world (run ext params w evs))) = emittedErrors (trace (world w)).
Proof.
  revert w. induction evs as [|ev evs IH]; intros w Hrec Hafter; [done|].
  inversion Hrec as [|? ? Hev Hrest]; subst.
  change (run ext params w (ev :: evs)) with (run ext params (step ext params w ev) evs) in *.
  rewrite (IH _ Hrest Hafter). apply step_holds_errors; [done|].
  destruct (returnedPromiseResolved (step ext params w ev)) eqn:Hr; [|done].
  destruct (run_fields ext params evs (step ext params w ev)) as [_ Hstay].
  destruct (Hstay Hr) as [Htrue _]. congruence.
Qed.

Lemma errors_wait_for_ready_witness :
  let ext := refExternals plainParser in
  let params := paramsFor raw read in
  let evs := [NewMail 0 (storeWith batchBroken);
              ConnectionError "epipe" (Resolved tt) (Resolved tt);
              NewMail 1 (storeWith [mail 9 []])] in
  let w := connectedWatcher params None in
  waiting (run ext params w evs) = [parseError; parseError] /\
  emittedErrors (trace (world (run ext params w evs))) = emittedErrors (trace (world w)).
Proof.
  split; [vm_compute; reflexivity|].
  apply (errors_wait_for_ready (refExternals plainParser) (paramsFor raw read)
           [NewMail 0 (storeWith batchBroken);
            ConnectionError "epipe" (Resolved tt) (Resolved tt);
            NewMail 1 (storeWith [mail 9 []])]
           (connectedWatcher (paramsFor raw read) None)).
  - repeat constructor.
  - vm_compute. reflexivity.
Defined.

Lemma step_queue_invariant ext params w ev :
  (returnedPromiseResolved w = true -> waiting w = []) ->
  returnedPromiseResolved (step ext params w ev) = true ->
  waiting (step ext params w ev) = [].
Proof.
  intros Hinv Hafter.
  destruct ev as [k current|code reconnect reopen|o|reconnect|]; simpl in *.
  - destruct (onMail_fields ext params k current w) as (H1 & _ & _ & _ & H5).
    rewrite H1 in Hafter. auto.
  - destruct (onConnectionError_fields ext params code reconnect reopen w)
      as (_ & H2 & H3 & _). simpl in *. rewrite H2 in Hafter. rewrite H3. auto.
  - destruct (returnedPromiseResolved w) eqn:Hr; [auto|].
    destruct (trigger_ready_fields params o w Hr) as (_ & _ & Ho). simpl in Ho.
    destruct o as [[]|reason]; [by destruct Ho as (_ & Hw & _)|].
    rewrite Ho in Hafter. congruence.
  - destruct (reconnectionInterval w); [|auto].
    destruct (forcedReconnect_fields ext params reconnect w) as (_ & H2 & H3 & _).
    simpl in *. rewrite H2 in Hafter. rewrite H3. auto.
  - destruct (closeFunction_fields w) as (_ & H2 & H3 & _). simpl in *.
    rewrite H2 in Hafter. rewrite H3. auto.
Qed.

Lemma step_delivers ext params w ev :
  (returnedPromiseResolved w = true -> waiting w = []) ->
  recoverable ev ->
  delivered (step ext params w ev) = delivered w ++ fetchError ext params w ev.
Proof.
  intros Hinv Hrec. unfold delivered.
  destruct ev as [k current|code reconnect reopen|o|reconnect|]; simpl in *.
  - destruct (connection w) as [c|] eqn:Hc; [|unfold onMail; rewrite Hc; by rewrite app_nil_r].
    destruct (closures w !! k) as [arr|] eqn:Hk;
      [|unfold onMail; rewrite Hc, Hk; by rewrite app_nil_r].
    rewrite (onMail_unfold _ _ _ _ _ _ _ Hc Hk). cbv zeta.
    destruct (getNewEmails ext params current _ (world w)) as [[evs|err] wd] eqn:Hcycle;
      pose proof (cycle_emits_no_error _ _ _ _ _ _ _ Hcycle) as He; cbn [fst].
    + destruct (0 <? length evs)%nat; watcher_fields;
        rewrite ?emittedErrors_app, He; simpl; by rewrite ?app_nil_r.
    + watcher_fields. destruct (returnedPromiseResolved w) eqn:Hr; watcher_fields.
      * rewrite (Hinv eq_refl). rewrite !emittedErrors_app, He. simpl.
        by rewrite !app_nil_r.
      * rewrite !emittedErrors_app, He. simpl. by rewrite !app_nil_r, app_assoc.
  - destruct (onConnectionError_fields ext params code reconnect reopen w)
      as (_ & _ & H3 & _ & _ & He). simpl in *. rewrite He, H3, Hrec. by rewrite !app_nil_r.
  - rewrite app_nil_r. destruct (returnedPromiseResolved w) eqn:Hr; [done|].
    destruct (trigger_ready_fields params o w Hr) as (_ & _ & Ho). simpl in Ho.
    destruct o as [[]|reason]; [|by rewrite Ho].
    destruct Ho as (_ & Hw & _ & He). by rewrite He, Hw, app_nil_r.
  - rewrite app_nil_r. destruct (reconnectionInterval w); [|done].
    destruct (forcedReconnect_fields ext params reconnect w) as (_ & _ & H3 & _ & _ & He).
    simpl in *. by rewrite He, H3.
  - rewrite app_nil_r.
    destruct (closeFunction_fields w) as (_ & _ & H3 & _ & _ & He). simpl in *.
    by rewrite He, H3.
Qed.

(** X14. No fetch error is lost, doubled or reordered on its way to
    [emitError]. Once [returnedPromise] is resolved the queue of waiting
    errors is empty, and stays empty. And handling one event (other than a
    connection error the handler does not recover from) extends the errors
    delivered so far, those emitted followed by those still queued, by
    exactly the error of the fetch cycle the event started, if that cycle
    failed: resolving the promise moves the queue to [emitError] in order. *)
Theorem fetch_errors_are_delivered_once ext params :
  (forall evs w,
     (returnedPromiseResolved w = true -> waiting w = []) ->
     returnedPromiseResolved (run ext params w evs) = true ->
     waiting (run ext params w evs) = []) /\
  (forall w ev,
     (returnedPromiseResolved w = true -> waiting w = []) ->
     recoverable ev ->
     delivered (step ext params w ev) = delivered w ++ fetchError ext params w ev) /\
  (forall w,
     returnedPromiseResolved w = false ->
     emittedErrors (trace (world (step ext params w (OpenBoxAnswered (Resolved tt))))) =
     emittedErrors (trace (world w)) ++ waiting w).
Proof.
  split; [|split].
  - induction evs as [|ev evs IH]; intros w Hinv Hafter; [auto|].
    change (run ext params w (ev :: evs)) with (run ext params (step ext params w ev) evs) in *.
    apply IH; [|done]. by apply step_queue_invariant.
  - apply step_delivers.
  - intros w Hr. unfold step. rewrite Hr.
    by destruct (trigger_ready_fields params (Resolved tt) w Hr) as (_ & _ & _ & _ & _ & He).
Qed.

Lemma fetch_errors_are_delivered_once_witness :
  let ext := refExternals plainParser in
  let params := paramsFor raw read in
  let w := connectedWatcher params None in
  let w1 := step ext params w (NewMail 0 (storeWith batchBroken)) in
  let w2 := step ext params w1 (OpenBoxAnswered (Resolved tt)) in
  delivered w1 = delivered w ++ [parseError] /\
  emittedErrors (trace (world w2)) = emittedErrors (trace (world w1)) ++ waiting w1 /\
  waiting (run ext params w [NewMail 0 (storeWith batchBroken); OpenBoxAnswered (Resolved tt)])
    = [].
Proof.
  destruct (fetch_errors_are_delivered_once (refExternals plainParser) (paramsFor raw read))
    as (Hqueue & Hstep & Hflush).
  split; [|split].
  - apply (Hstep (connectedWatcher (paramsFor raw read) None) (NewMail 0 (storeWith batchBroken)));
      [discriminate | exact I].
  - apply Hflush. vm_compute. reflexivity.
  - apply Hqueue; [discriminate | vm_compute; reflexivity].
Defined.

(** ** Connection errors and reconnections *)

Lemma connectCalls_app t1 t2 : connectCalls (t1 ++ t2) = (connectCalls t1 + connectCalls t2)%nat.
Proof. unfold connectCalls. by rewrite List.filter_app, length_app. Qed.

(** X15. The error handler of a connection sorts errors by their code,
    read without regard to case. For ECONNRESET and EPIPE it gives nothing
    to [emitError], even when the reconnection fails, and it asks for one
    new connection whenever the criteria text is valid. For any other code
    it gives exactly that error to [emitError], asks for no connection, and
    keeps the current connection and all criteria arrays. In both cases the
    mark, the promise and the queue of waiting errors are untouched. *)
Theorem connection_error_is_sorted_by_code ext params code reconnect reopen w :
  let w' := onConnectionError ext params code reconnect reopen w in
  isTransient code = isTransient (toUpperCase code) /\
  emittedErrors (trace (world w')) =
    emittedErrors (trace (world w)) ++ (if isTransient code then [] else [ExternalError code]) /\
  connectCalls (trace (world w')) =
    (connectCalls (trace (world w)) +
     match isTransient code, baseCriteria ext params with
     | true, Ok _ => 1
     | _, _ => 0
     end)%nat /\
  (isTransient code = false -> connection w' = connection w /\ closures w' = closures w) /\
  lastMessageUid (world w') = lastMessageUid (world w) /\
  returnedPromiseResolved w' = returnedPromiseResolved w /\
  waiting w' = waiting w.
Proof.
  cbv zeta.
  destruct (onConnectionError_fields ext params code reconnect reopen w)
    as (H1 & H2 & H3 & _ & _ & He). simpl in *.
  split; [unfold isTransient; by rewrite toUpperCase_idem|].
  split; [exact He|]. split; [|split; [|by repeat split]].
  - clear. unfold onConnectionError. fold (isTransient code). destruct (isTransient code).
    + rewrite establishConnection_unfold. destruct (baseCriteria ext params) as [base|e].
      * destruct reconnect as [[]|reason]; [destruct reopen|]; watcher_fields;
          rewrite !connectCalls_app; unfold connectCalls; simpl; lia.
      * watcher_fields. rewrite ?connectCalls_app. unfold connectCalls. simpl. lia.
    + watcher_fields. rewrite !connectCalls_app. unfold connectCalls. simpl. lia.
  - intros Hf. unfold onConnectionError. fold (isTransient code). rewrite Hf.
    by watcher_fields.
Qed.

(** X16. Every reconnection that succeeds, forced by the timer or made
    after a transient error, gives the new connection a criteria array of
    its own that holds the base criteria only: the UID criteria collected
    on earlier connections stay in their arrays and are not searched with
    again. The variable [connection] then refers to the new connection. *)
Theorem reconnection_starts_from_base_criteria ext params base w :
  baseCriteria ext params = Ok base ->
  (let w' := forcedReconnect ext params (Resolved tt) w in
   connection w' = Some (length (closures w)) /\
   closures w' = closures w ++ [base]) /\
  (forall code reopen,
     isTransient code = true ->
     let w' := onConnectionError ext params code (Resolved tt) reopen w in
     connection w' = Some (length (closures w)) /\
     closures w' = closures w ++ [base]) /\
  (forall w', closures w' = closures w ++ [base] ->
     closures w' !! length (closures w) = Some base /\
     forall k arr, closures w !! k = Some arr -> closures w' !! k = Some arr).
Proof.
  intros Hbase. split; [|split].
  - unfold forcedReconnect. rewrite establishConnection_unfold, Hbase. by watcher_fields.
  - intros code reopen Ht. unfold onConnectionError. fold (isTransient code). rewrite Ht.
    rewrite establishConnection_unfold, Hbase. destruct reopen; by watcher_fields.
  - intros w' ->. split.
    + rewrite lookup_app_r by done. by rewrite Nat.sub_diag.
    + intros k arr Hk. by apply lookup_app_l_Some.
Qed.

Lemma reconnection_starts_from_base_criteria_witness :
  let ext := refExternals plainParser in
  let params := paramsFor raw nothing in
  let w := onMail ext params 0 (storeWith batch79) (readyWatcher params (Some 5%N)) in
  let w' := onConnectionError ext params "EPIPE" (Resolved tt) (Resolved tt) w in
  closures w !! 0%nat = Some [Crit "UNSEEN"; CritList [Crit "UID"; Crit "5:*"]] /\
  connection w' = Some (length (closures w)) /\
  closures w' = closures w ++ [unseen].
Proof.
  split; [vm_compute; reflexivity|].
  destruct (reconnection_starts_from_base_criteria (refExternals plainParser)
              (paramsFor raw nothing) unseen
              (onMail (refExternals plainParser) (paramsFor raw nothing) 0 (storeWith batch79)
                 (readyWatcher (paramsFor raw nothing) (Some 5%N))) eq_refl)
    as (_ & Htransient & _).
  apply (Htransient "EPIPE" (Resolved tt)). vm_compute. reflexivity.
Defined.

Lemma trigger_succeeded ext params connectOutcome openBoxOutcome persisted w :
  trigger ext params connectOutcome openBoxOutcome (initialWatcher persisted) = (Ok tt, w) ->
  returnedPromiseResolved w = true /\
  reconnectionInterval w = bool_decide (forceReconnect params <> None) /\
  waiting w = [] /\
  exists base,
    baseCriteria ext params = Ok base /\
    trace (world w) =
      [ImapConnect; ImapOpenBox (mailbox params)] ++
      match forceReconnect params with
      | Some minutes => [SetInterval minutes]
      | None => []
      end ++ [ReturnedPromiseResolve].
Proof.
  unfold trigger, trigger_connect. rewrite establishConnection_unfold.
  destruct (baseCriteria ext params) as [base|e]; [|done].
  destruct connectOutcome as [[]|reason]; [|done].
  unfold trigger_ready. destruct openBoxOutcome as [[]|reason]; [|done].
  intros [= <-]. unfold resolveReturnedPromise.
  destruct (forceReconnect params) as [minutes|]; simpl; repeat split; try done;
    by exists base.
Qed.

(** X17. After [trigger] has returned, the reconnection timer exists
    exactly when a forced reconnection interval is configured, whatever
    happens afterwards: [closeFunction] then clears the timer and ends the
    connection, or, without the option, only ends the connection; and
    without the option no reconnection is ever made by a timer. *)
Theorem timer_lives_from_trigger_to_close ext params connectOutcome openBoxOutcome
    persisted w evs :
  trigger ext params connectOutcome openBoxOutcome (initialWatcher persisted) = (Ok tt, w) ->
  let w' := run ext params w evs in
  trace (world (closeFunction w')) =
    trace (world w') ++
    match forceReconnect params with
    | Some _ => [ClearInterval; ImapEnd]
    | None => [ImapEnd]
    end /\
  (forceReconnect params = None ->
   forall reconnect, step ext params w' (ReconnectTimer reconnect) = w').
Proof.
  intros Htrigger. cbv zeta.
  destruct (trigger_succeeded _ _ _ _ _ _ Htrigger) as (Hr & Hi & _).
  destruct (run_fields ext params evs w) as [_ Hstay].
  destruct (Hstay Hr) as [_ Hinterval]. rewrite Hi in Hinterval.
  split.
  - unfold closeFunction. rewrite Hinterval.
    destruct (forceReconnect params); simpl; watcher_fields; by rewrite <- ?app_assoc.
  - intros Hnone reconnect. simpl. rewrite Hinterval, Hnone. done.
Qed.

Lemma timer_lives_from_trigger_to_close_witness :
  let ext := refExternals plainParser in
  let params :=
    {| mailbox := "INBOX"; postProcessAction := read; format := raw;
       downloadAttachments := false; dataPropertyAttachmentsPrefixName := "attachment_";
       customEmailConfig := None; forceReconnect := Some 60%N |} in
  let w := snd (trigger ext params (Resolved tt) (Resolved tt) (initialWatcher None)) in
  let w' := run ext params w [ReconnectTimer (Resolved tt); NewMail 1 (storeWith batch579)] in
  trace (world (closeFunction w')) = trace (world w') ++ [ClearInterval; ImapEnd] /\
  (Some 60%N = None ->
   forall reconnect, step ext params w' (ReconnectTimer reconnect) = w').
Proof.
  apply (timer_lives_from_trigger_to_close (refExternals plainParser)
           {| mailbox := "INBOX"; postProcessAction := read; format := raw;
              downloadAttachments := false; dataPropertyAttachmentsPrefixName := "attachment_";
              customEmailConfig := None; forceReconnect := Some 60%N |}
           (Resolved tt) (Resolved tt) None).
  vm_compute. reflexivity.
Defined.

(** X18. A notification whose search finds no message changes nothing
    but the criteria array: the only call is the search, nothing is
    emitted, no message is flagged even when the action is [read], no error
    is raised and the mark stays where it was. *)
Theorem empty_search_result_is_a_no_op ext params k current w c arr :
  connection w = Some c ->
  closures w !! k = Some arr ->
  search current (criteriaSent arr (lastMessageUid (world w))) (fetchOptionsFor (format params))
    = Resolved [] ->
  let w' := onMail ext params k current w in
  trace (world w') =
    trace (world w) ++
    [ImapSearch (criteriaSent arr (lastMessageUid (world w))) (fetchOptionsFor (format params))] /\
  lastMessageUid (world w') = lastMessageUid (world w) /\
  waiting w' = waiting w /\
  connection w' = connection w.
Proof.
  intros Hc Hk Hsearch. cbv zeta. rewrite (onMail_unfold _ _ _ _ _ _ _ Hc Hk). cbv zeta.
  rewrite getNewEmails_unfold. cbv zeta. rewrite Hsearch.
  assert (Hflags : closingFlags params [] = []) by (unfold closingFlags; by destruct (postProcessAction params)).
  simpl forEachMessage. unfold ret. rewrite Hflags. by watcher_fields.
Qed.

Lemma empty_search_result_is_a_no_op_witness :
  let ext := refExternals plainParser in
  let params := paramsFor simple read in
  let w := readyWatcher params (Some 5%N) in
  let w' := onMail ext params 0 (storeWith []) w in
  trace (world w') =
    trace (world w) ++
    [ImapSearch (criteriaSent unseen (lastMessageUid (world w))) (fetchOptionsFor simple)] /\
  lastMessageUid (world w') = lastMessageUid (world w) /\
  waiting w' = waiting w /\
  connection w' = connection w.
Proof.
  apply (empty_search_result_is_a_no_op (refExternals plainParser) (paramsFor simple read)
           0 (storeWith []) (readyWatcher (paramsFor simple read) (Some 5%N)) 0%nat unseen);
    reflexivity.
Defined.

(** ** Credentials and connection options *)


(** X20. The credential test never raises: it reports 'OK' exactly when
    both [imapConnect] and the connection's [getBoxes] succeed, and
    otherwise 'Error' with the reason of the call that failed. It connects
    once, with the test options, and asks for the mailbox list only on a
    connection it obtained. *)
Theorem credential_test_reports_first_failure trim imapConnect credential :
  let result := fst (imapConnectionTest trim imapConnect credential) in
  let calls := snd (imapConnectionTest trim imapConnect credential) in
  (test_status result = "OK" <->
   exists unit_, imapConnect (testOptions trim credential) = Resolved (Resolved unit_)) /\
  (test_status result = "OK" -> test_message result = "Connection successful!") /\
  (test_status result = "OK" \/ test_status result = "Error") /\
  (forall reason,
     imapConnect (testOptions trim credential) = Rejected reason ->
     result = {| test_status := "Error"; test_message := reason |} /\
     calls = [TestConnect (testOptions trim credential)]) /\
  (forall reason,
     imapConnect (testOptions trim credential) = Resolved (Rejected reason) ->
     result = {| test_status := "Error"; test_message := reason |} /\
     calls = [TestConnect (testOptions trim credential); TestGetBoxes]) /\
  head calls = Some (TestConnect (testOptions trim credential)) /\
  (TestGetBoxes ∈ calls <-> exists boxes, imapConnect (testOptions trim credential) = Resolved boxes).
Proof.
  cbv zeta. unfold imapConnectionTest.
  destruct (imapConnect (testOptions trim credential)) as [[u|reason]|reason]; simpl;
    repeat split; intros;
    repeat match goal with
           | H : exists _, _ |- _ => destruct H
           | H : _ ∈ _ :: _ |- _ => apply elem_of_cons in H as [?|?]
           | H : _ ∈ [] |- _ => apply elem_of_nil in H
           end;
    simplify_eq; eauto;
    try (by left); try (by right); try (right; by left); try contradiction.
Qed.

(** ** Further failures of a cycle *)

Lemma find_none_filter {A} (f : A -> bool) (l : list A) :
  List.find f l = None -> List.filter f l = [].
Proof.
  induction l as [|a l IH]; simpl; [done|]. destruct (f a); [done | exact IH].
Qed.

Lemma getText_ok conn ps m sub w :
  exists text w', getText conn ps m sub w = (Ok text, w').
Proof.
  unfold getText. destruct (struct m); [|by eexists _, _].
  destruct (List.filter _ ps) as [|part others]; [by eexists _, _|].
  unfold try_catch, bind, perform. simpl.
  destruct (getPartData conn m part); simpl; by eexists _, _.
Qed.

(** X21. In the simple format, when the loop of a cycle reaches a message
    that the filter does not skip, whose structure [getParts] can read and
    which has no HEADER section, the cycle fails with a TypeError, the one
    raised by reading [body] of an undefined part. *)
Theorem simple_without_header_fails_cycle ext params conn crit w pre m post evs w1 ps :
  format params = simple ->
  search conn crit (fetchOptionsFor simple) = Resolved (pre ++ m :: post) ->
  forEachMessage (loopBodyFor ext params conn) pre []
    (logged w (ImapSearch crit (fetchOptionsFor simple))) = (Ok evs, w1) ->
  skipped (lastMessageUid w1) m = false ->
  getParts ext (struct m) = Resolved ps ->
  requiredPart simple m = None ->
  exists w', getNewEmails ext params conn crit w = (Err headerTypeError, w').
Proof.
  intros Hf Hsearch Hpre Hskip Hparts Hpart.
  rewrite getNewEmails_unfold. cbv zeta. rewrite Hf, Hsearch.
  rewrite forEachMessage_app, Hpre, forEachMessage_cons, Hskip.
  assert (Hbody : exists w', loopBodyFor ext params conn m (markAt w1 (uid m))
                             = (Err headerTypeError, w')).
  { unfold loopBodyFor. rewrite Hf. unfold simpleBody, bind. rewrite Hparts. simpl.
    destruct (getText_ok conn ps m "html" (markAt w1 (uid m))) as (html & wa & ->).
    destruct (getText_ok conn ps m "plain" wa) as (plain & wb & ->).
    simpl in Hpart. rewrite (find_none_filter _ _ Hpart). by eexists. }
  destruct Hbody as [w' ->]. by eexists.
Qed.

Lemma simple_without_header_fails_cycle_witness :
  exists w', getNewEmails (refExternals plainParser) (paramsFor simple read)
               (storeWith [headerOnly; mail 6 [textPart "body"]]) unseen (freshWorld None)
             = (Err headerTypeError, w').
Proof.
  apply (simple_without_header_fails_cycle (refExternals plainParser) (paramsFor simple read)
           (storeWith [headerOnly; mail 6 [textPart "body"]]) unseen (freshWorld None)
           [headerOnly] (mail 6 [textPart "body"]) []
           (eventsOf (forEachMessage (loopBodyFor (refExternals plainParser)
                                        (paramsFor simple read)
                                        (storeWith [headerOnly; mail 6 [textPart "body"]]))
                        [headerOnly] []
                        (logged (freshWorld None) (ImapSearch unseen (fetchOptionsFor simple)))))
           (snd (forEachMessage (loopBodyFor (refExternals plainParser)
                                   (paramsFor simple read)
                                   (storeWith [headerOnly; mail 6 [textPart "body"]]))
                   [headerOnly] []
                   (logged (freshWorld None) (ImapSearch unseen (fetchOptionsFor simple)))))
           []).
  - reflexivity.
  - reflexivity.
  - vm_compute. reflexivity.
  - vm_compute. reflexivity.
  - reflexivity.
  - reflexivity.
Defined.

(** X22. When the action is [read] and the store rejects the closing
    [addFlags] request, the cycle fails with the store's reason although
    every message was formatted: no event is returned, and the mark stays
    at the largest uid of the result. *)
Theorem rejected_flagging_fails_cycle ext params conn crit w results reason r w' :
  postProcessAction params = read ->
  search conn crit (fetchOptionsFor (format params)) = Resolved results ->
  results <> [] ->
  addFlags conn (map uid results) SEEN = Rejected reason ->
  getNewEmails ext params conn crit w = (r, w') ->
  (forall evs, r <> Ok evs) /\
  (last (trace w') = Some (ImapAddFlags (map uid results) SEEN) ->
   r = Err (ExternalError reason) /\
   lastMessageUid w' = hwmMax (lastMessageUid w) (map uid results)).
Proof.
  intros Hact Hsearch Hne Hflags. rewrite getNewEmails_unfold. cbv zeta. rewrite Hsearch.
  destruct (forEachMessage _ results [] _) as [[evs0|e] w1] eqn:Hloop.
  - unfold closingFlags. rewrite Hact. destruct results as [|m rest]; [done|].
    rewrite Hflags. intros [= <- <-]. split; [done|]. intros _. split; [done|].
    destruct (forEachMessage_frame _ (quiet_loopBodyFor ext params conn) _ _ _ _ _ Hloop)
      as [U _].
    rewrite (visited_completed _ _ _ _ _ _ Hloop) in U. exact U.
  - intros [= <- <-]. split; [done|]. intros Hlast. exfalso.
    destruct (forEachMessage_frame _ (quiet_loopBodyFor ext params conn) _ _ _ _ _ Hloop)
      as [_ (t & T & F)]. simpl in T. rewrite T, <- app_assoc in Hlast.
    assert (Hlast' : last ((trace w ++ [ImapSearch crit (fetchOptionsFor (format params))]) ++ t)
                     = Some (ImapAddFlags (map uid results) SEEN)) by (by rewrite <- app_assoc).
    clear Hlast. rewrite last_app in Hlast'.
    destruct (last t) as [x|] eqn:Hx.
    + injection Hlast' as ->. apply last_Some in Hx as [l' ->].
      apply Forall_app in F as [_ F]. inversion F as [|? ? [u [part Heq]] _]; subst. done.
    + by rewrite last_snoc in Hlast'.
Qed.

Lemma rejected_flagging_fails_cycle_witness :
  let conn := {| search := fun _ _ => Resolved batch579;
                 getPartData := fun _ part => Resolved (partID part);
                 addFlags := fun _ _ => Rejected "NO [CANNOT] read-only mailbox" |} in
  let r := getNewEmails (refExternals plainParser) (paramsFor raw read) conn unseen
             (freshWorld None) in
  (forall evs, fst r <> Ok evs) /\
  (last (trace (snd r)) = Some (ImapAddFlags (map uid batch579) SEEN) ->
   fst r = Err (ExternalError "NO [CANNOT] read-only mailbox") /\
   lastMessageUid (snd r) = hwmMax (lastMessageUid (freshWorld None)) (map uid batch579)).
Proof.
  apply (rejected_flagging_fails_cycle (refExternals plainParser) (paramsFor raw read)
           {| search := fun _ _ => Resolved batch579;
              getPartData := fun _ part => Resolved (partID part);
              addFlags := fun _ _ => Rejected "NO [CANNOT] read-only mailbox" |}
           unseen (freshWorld None) batch579 "NO [CANNOT] read-only mailbox").
  - reflexivity.
  - reflexivity.
  - done.
  - reflexivity.
  - apply surjective_pairing.
Defined.

(** X23. Events reach [emit] through notifications only: handling a
    connection error, the answer of [openBox], the reconnection timer or
    the closing of the watcher emits no batch. *)
Theorem only_notifications_emit ext params w ev :
  (forall k current, ev <> NewMail k current) ->
  emittedBatches (trace (world (step ext params w ev))) = emittedBatches (trace (world w)).
Proof.
  intros Hev. destruct ev as [k current|code reconnect reopen|o|reconnect|]; simpl.
  - by destruct (Hev k current).
  - by destruct (onConnectionError_fields ext params code reconnect reopen w)
      as (_ & _ & _ & _ & Hb & _).
  - destruct (returnedPromiseResolved w) eqn:Hr; [done|].
    by destruct (trigger_ready_fields params o w Hr) as (_ & Hb & _).
  - destruct (reconnectionInterval w); [|done].
    by destruct (forcedReconnect_fields ext params reconnect w) as (_ & _ & _ & _ & Hb & _).
  - by destruct (closeFunction_fields w) as (_ & _ & _ & _ & Hb & _).
Qed.

Lemma only_notifications_emit_witness :
  let ext := refExternals plainParser in
  let params := paramsFor raw read in
  let w := onMail ext params 0 (storeWith batch579) (readyWatcher params None) in
  emittedBatches (trace (world (step ext params w
                                  (ConnectionError "ETIMEDOUT" (Resolved tt) (Resolved tt))))) =
  emittedBatches (trace (world w)).
Proof.
  apply (only_notifications_emit (refExternals plainParser) (paramsFor raw read)). done.
Defined.
